(** * Qodex: the command-line entry point, embedded and verified.

    The program ([src/qodex/__main__.py]) builds an [argparse] parser with one
    variadic positional argument [files] of type [FileType("r+")], parses the
    process arguments, prints a greeting and returns [os.EX_OK].

    Almost everything observable is decided by the Python standard library the
    program calls.  The embedding therefore has three layers:

    - [Python]: the runtime (process state, exceptions, the monad of effectful
      code, the builtins [open], [print], [sys.exit], the slice of [re] that
      [argparse] uses);
    - [argparse]: the parsing algorithm of CPython 3.11's [argparse.py], for
      the features this parser uses;
    - [qodex]: the module itself, function by function.

    They are followed by the vocabulary of the statements and by the proofs:
    first what every run of the parser can do (section [Outcomes]), then the
    command lines without option strings (section [Parse]), then one
    subsection per claim.  The last part, [Further properties], follows the
    parser through whole command lines: how each argument string is read,
    when exactly the parse succeeds and with which streams, and what the
    run ends with when paths are followed by a path that cannot be opened,
    by a help option, or by an option the parser does not know.

    Strings are ASCII strings; [\d] of Python's [re] is modelled as ['0'..'9']. *)

From Stdlib Require Import String Ascii List ZArith Lia Bool DecimalString.
From stdpp Require Import base strings gmap.
Import ListNotations.

#[local] Set Warnings "-register-all".

Local Open Scope string_scope.
Local Open Scope list_scope.

(* ===================================================================== *)
(** * The Python runtime                                                  *)
(* ===================================================================== *)

Module Python.

(** ** Strings *)

(** The one-character string ["\n"]. *)
Definition nl : string := String "010"%char EmptyString.

(** The one-character string holding a double quote. *)
Definition dq : string := String "034"%char EmptyString.

(** [needle in hay] for two [str] values: substring test. *)
Fixpoint str_in (needle hay : string) : bool :=
  String.prefix needle hay ||
  match hay with
  | EmptyString => false
  | String _ hay' => str_in needle hay'
  end.

(** [s.startswith(p)] *)
Definition startswith (s p : string) : bool := String.prefix p s.

(** [c in chars] for a one-character string [c]. *)
Fixpoint char_in (c : ascii) (chars : string) : bool :=
  match chars with
  | EmptyString => false
  | String c' chars' => Ascii.eqb c c' || char_in c chars'
  end.

(** [s.split(sep, 1)] for a one-character [sep] that occurs in [s]:
    the text before the first [sep] and the text after it. *)
Fixpoint split1 (sep : ascii) (s : string) : string * string :=
  match s with
  | EmptyString => (EmptyString, EmptyString)
  | String c s' =>
      if Ascii.eqb c sep then (EmptyString, s')
      else let '(a, b) := split1 sep s' in (String c a, b)
  end.

(** [sep.join(l)] *)
Fixpoint join (sep : string) (l : list string) : string :=
  match l with
  | [] => ""
  | [x] => x
  | x :: l' => x +:+ sep +:+ join sep l'
  end.

(** [str(n)] for a natural number. *)
Definition str_nat (n : nat) : string := NilEmpty.string_of_uint (Nat.to_uint n).

(** [repr(s)] of a [str] without quotes, backslashes or control
    characters (the escaping of those is not modelled; no property below
    depends on the text of a diagnostic beyond its fixed parts). *)
Definition repr (s : string) : string := "'" +:+ s +:+ "'".

(** [l[start:stop]] and [l[start:]] for non-negative indices. *)
Definition slice {A} (l : list A) (start stop : nat) : list A :=
  firstn (stop - start) (skipn start l).
Definition slice_from {A} (l : list A) (start : nat) : list A := skipn start l.

(** [s[start:]] for a string. *)
Fixpoint str_from (s : string) (start : nat) : string :=
  match start, s with
  | O, _ => s
  | S n, String _ s' => str_from s' n
  | S _, EmptyString => EmptyString
  end.

(** [l.remove(x)]: drops the first occurrence; [None] stands for the
    [ValueError] raised when there is none. *)
Fixpoint list_remove (x : string) (l : list string) : option (list string) :=
  match l with
  | [] => None
  | y :: l' =>
      if String.eqb y x then Some l'
      else option_map (cons y) (list_remove x l')
  end.

(** ** The slice of [re] that argparse needs

    A pattern is a sequence of items; [re.match] anchors at the start,
    quantifiers are greedy and backtrack. *)
Inductive re_item :=
| Chr (cls : string)     (* one character of the class: [A], [[A-]], [\d] *)
| Star (cls : string)    (* [c*], [[A-]*], [\d*] *)
| Dollar.                (* [$]: the end, or just before a final newline *)

(** Whether [$] matches at the start of [s]. *)
Definition at_dollar (s : string) : bool :=
  match s with
  | EmptyString => true
  | String c EmptyString => Ascii.eqb c "010"%char
  | _ => false
  end.

(** [match_items items s n k]: match [items] against a prefix of [s];
    [n] counts the characters consumed so far, [k] is the rest of the
    match (the following groups), to which the matcher backtracks. *)
Fixpoint match_items {R} (items : list re_item) (s : string) (n : nat)
    (k : nat -> string -> option R) {struct items} : option R :=
  match items with
  | [] => k n s
  | Chr cls :: items' =>
      match s with
      | String c s' =>
          if char_in c cls then match_items items' s' (S n) k else None
      | EmptyString => None
      end
  | Dollar :: items' =>
      if at_dollar s then match_items items' s n k else None
  | Star cls :: items' =>
      (fix star (s : string) (n : nat) {struct s} : option R :=
         match s with
         | String c s' =>
             if char_in c cls then
               match star s' (S n) with
               | Some r => Some r
               | None => match_items items' s n k
               end
             else match_items items' s n k
         | EmptyString => match_items items' s n k
         end) s n
  end.

(** [re.match(pattern, s)] for a pattern made of capture groups in
    sequence; the result is [[len(g) for g in match.groups()]]. *)
Fixpoint re_match_groups (groups : list (list re_item)) (s : string)
    : option (list nat) :=
  match groups with
  | [] => Some []
  | g :: groups' =>
      match_items g s 0
        (fun n rest => option_map (cons n) (re_match_groups groups' rest))
  end.

(** [re.match(pattern, s) is not None] for a pattern without groups. *)
Definition re_matches (items : list re_item) (s : string) : bool :=
  match match_items items s 0 (fun _ _ => Some tt) with
  | Some _ => true
  | None => false
  end.

(** The class [\d]. *)
Definition digits : string := "0123456789".

(** ** Files *)

Inductive Errno := ENOENT | EACCES | EEXIST | EISDIR.

Definition errno_number (e : Errno) : string :=
  match e with ENOENT => "2" | EACCES => "13" | EEXIST => "17" | EISDIR => "21" end.

Definition strerror (e : Errno) : string :=
  match e with
  | ENOENT => "No such file or directory"
  | EACCES => "Permission denied"
  | EEXIST => "File exists"
  | EISDIR => "Is a directory"
  end.

(** What the file system holds at a path. *)
Record Inode := {
  is_dir : bool;
  may_read : bool;
  may_write : bool;
  content : string
}.

(** A text stream: one of the standard streams, or a file opened by
    [open]. *)
Inductive TextIO :=
| sys_stdin
| sys_stdout
| TextIOWrapper (name : string) (mode : string) (fileno : nat).

(** [f.name] *)
Definition stream_name (f : TextIO) : string :=
  match f with
  | sys_stdin => "<stdin>"
  | sys_stdout => "<stdout>"
  | TextIOWrapper name _ _ => name
  end.

(** ** Exceptions *)

Inductive exn :=
| OSError (errno : Errno) (filename : string)
| ValueError (msg : string)
| KeyError (key : string)
| ArgumentTypeError (msg : string)
| ArgumentError (argument_name : option string) (message : string)
| SystemExit (code : Z).

(** [str(e)] for an [OSError] with a file name. *)
Definition str_OSError (errno : Errno) (filename : string) : string :=
  "[Errno " +:+ errno_number errno +:+ "] " +:+ strerror errno +:+ ": "
    +:+ repr filename.

(** ** Process state *)

(** [sys.argv] is [argv0 :: args].  [stdout] and [stderr] hold what has
    been written so far.  [fs] is the file system, the only part of the
    state that outlives the process. *)
Record Process := {
  fs : gmap string Inode;
  argv0 : string;
  args : list string;
  stdout : string;
  stderr : string;
  open_files : list TextIO
}.

(** A process at its start: nothing written, nothing opened. *)
Definition fresh_process (fs0 : gmap string Inode) (a0 : string) (a : list string)
    : Process :=
  {| fs := fs0; argv0 := a0; args := a; stdout := ""; stderr := "";
     open_files := [] |}.

(** How a computation ends: with a value, with an exception, or (for the
    one loop below that is bounded by fuel) without an answer. *)
Inductive completion (A : Type) : Type :=
| Normal (a : A)
| Raise (e : exn)
| OutOfFuel.
Arguments Normal {A} a.
Arguments Raise {A} e.
Arguments OutOfFuel {A}.

(** Effectful code: a function of the process state. *)
Definition Py (A : Type) : Type := Process -> Process * completion A.

Definition ret {A} (a : A) : Py A := fun st => (st, Normal a).

Definition bind {A B} (m : Py A) (k : A -> Py B) : Py B :=
  fun st =>
    match m st with
    | (st', Normal a) => k a st'
    | (st', Raise e) => (st', Raise e)
    | (st', OutOfFuel) => (st', OutOfFuel)
    end.

Definition raise {A} (e : exn) : Py A := fun st => (st, Raise e).

(** [try: m  except ...: handler]; [handler e = None] when no [except]
    clause matches [e]. *)
Definition try_except {A} (m : Py A) (handler : exn -> option (Py A)) : Py A :=
  fun st =>
    match m st with
    | (st', Raise e) =>
        match handler e with
        | Some h => h st'
        | None => (st', Raise e)
        end
    | r => r
    end.

(** [[f(x) for x in l]], evaluated left to right. *)
Fixpoint map_py {A B} (f : A -> Py B) (l : list A) : Py (list B) :=
  match l with
  | [] => ret []
  | x :: l' => bind (f x) (fun y => bind (map_py f l') (fun ys => ret (y :: ys)))
  end.

(** ** Builtins *)

(** State updates. *)
Definition with_fs (st : Process) (fs' : gmap string Inode) : Process :=
  {| fs := fs'; argv0 := argv0 st; args := args st; stdout := stdout st;
     stderr := stderr st; open_files := open_files st |}.

Definition with_open_file (st : Process) (h : TextIO) : Process :=
  {| fs := fs st; argv0 := argv0 st; args := args st; stdout := stdout st;
     stderr := stderr st; open_files := open_files st ++ [h] |}.

(** The two streams the program writes to. *)
Inductive OutStream := StdOut | StdErr.

(** [file.write(s)] for [sys.stdout] and [sys.stderr]. *)
Definition file_write (file : OutStream) (s : string) : Py unit :=
  fun st =>
    match file with
    | StdOut =>
        ({| fs := fs st; argv0 := argv0 st; args := args st;
            stdout := stdout st +:+ s; stderr := stderr st;
            open_files := open_files st |}, Normal tt)
    | StdErr =>
        ({| fs := fs st; argv0 := argv0 st; args := args st;
            stdout := stdout st; stderr := stderr st +:+ s;
            open_files := open_files st |}, Normal tt)
    end.

(** [print(s)]: the text and a newline, on standard output. *)
Definition print (s : string) : Py unit := file_write StdOut (s +:+ nl).

(** [sys.exit(code)] *)
Definition sys_exit {A} (code : Z) : Py A := raise (SystemExit code).

(** [sys.argv[0]] and [sys.argv[1:]] *)
Definition sys_argv_0 : Py string := fun st => (st, Normal (argv0 st)).
Definition sys_argv_from_1 : Py (list string) := fun st => (st, Normal (args st)).

(** [os.path.basename(p)] ([posixpath]): what follows the last slash. *)
Fixpoint os_path_basename (p : string) : string :=
  match p with
  | EmptyString => EmptyString
  | String c p' =>
      if char_in "/" p' then os_path_basename p'
      else if Ascii.eqb c "/" then p' else p
  end.

(** [os.EX_OK] (POSIX) *)
Definition os_EX_OK : Z := 0.

(** A file after truncation, and a file just created. *)
Definition truncated (ino : Inode) : Inode :=
  {| is_dir := is_dir ino; may_read := may_read ino;
     may_write := may_write ino; content := "" |}.

Definition new_file : Inode :=
  {| is_dir := false; may_read := true; may_write := true; content := "" |}.

(** [open(file, mode)] for a text [mode]: ['r'] reads, ['w'] creates or
    truncates, ['a'] creates or appends, ['x'] creates exclusively, ['+']
    adds the other direction.  The new stream gets the next free
    descriptor (0, 1 and 2 are the standard streams). *)
Definition open (file mode : string) : Py TextIO :=
  fun st =>
    let creating := str_in "x" mode in
    let writing := str_in "w" mode in
    let appending := str_in "a" mode in
    let updating := str_in "+" mode in
    let reading := str_in "r" mode in
    let readable := reading || updating in
    let writable := creating || writing || appending || updating in
    let h := TextIOWrapper file mode (3 + length (open_files st)) in
    match (if String.eqb file "" then None else fs st !! file) with
    | None =>
        if creating || writing || appending
        then (with_open_file (with_fs st (<[file := new_file]> (fs st))) h,
              Normal h)
        else (st, Raise (OSError ENOENT file))
    | Some ino =>
        if creating then (st, Raise (OSError EEXIST file))
        else if is_dir ino then (st, Raise (OSError EISDIR file))
        else if (readable && negb (may_read ino))
                || (writable && negb (may_write ino))
        then (st, Raise (OSError EACCES file))
        else if writing
        then (with_open_file (with_fs st (<[file := truncated ino]> (fs st))) h,
              Normal h)
        else (with_open_file st h, Normal h)
    end.

(** ** Values held by a namespace *)

Inductive PyObj :=
| PyNone
| PyStr (s : string)
| PyFile (f : TextIO)
| PyList (l : list PyObj).

End Python.

Declare Scope py_scope.
Delimit Scope py_scope with py.
Notation "x <- m ;; k" := (Python.bind m (fun x => k))
  (at level 100, m at next level, right associativity) : py_scope.
Notation "m ;;; k" := (Python.bind m (fun _ => k))
  (at level 100, right associativity) : py_scope.

Local Open Scope py_scope.

(* ===================================================================== *)
(** * argparse (CPython 3.11), for the features the program uses          *)
(* ===================================================================== *)

Module argparse.
Import Python.

(** [SUPPRESS = '==SUPPRESS=='] *)
Definition SUPPRESS : string := "==SUPPRESS==".

(** The forms of [nargs] covered: [None] (one argument), an integer, and
    ['*'].  [OPTIONAL], [ONE_OR_MORE], [REMAINDER] and [PARSER] are not
    used by this parser and are left out. *)
Inductive Nargs := nargs_None | nargs_int (n : nat) | ZERO_OR_MORE.

(** [FileType(mode)], with [bufsize], [encoding] and [errors] at their
    defaults. *)
Record FileType := { _mode : string }.

(** The two action classes in use: [action='help'] and the default
    [action='store']. *)
Inductive ActionClass := _HelpAction | _StoreAction.

Record Action := {
  action_class : ActionClass;
  option_strings : list string;
  dest : string;
  nargs : Nargs;
  default : PyObj;
  type : option FileType;
  required : bool;
  help : option string
}.

(** Actions are compared by identity in Python; within one parser the
    option strings and the destination identify an action. *)
Definition action_eqb (a b : Action) : bool :=
  bool_decide (option_strings a = option_strings b) && String.eqb (dest a) (dest b).

Definition action_in (a : Action) (l : list Action) : bool :=
  existsb (action_eqb a) l.

Record ArgumentParser := {
  prog : string;
  prefix_chars : string;
  add_help : bool;
  allow_abbrev : bool;
  exit_on_error : bool;
  _actions : list Action;
  _option_string_actions : list (string * Action);
  _has_negative_number_optionals : list bool
}.

(** [Namespace]: an attribute holder; attributes in insertion order. *)
Definition Namespace := list (string * PyObj).

Fixpoint getattr (ns : Namespace) (name : string) : option PyObj :=
  match ns with
  | [] => None
  | (n, v) :: ns' => if String.eqb n name then Some v else getattr ns' name
  end.

Definition hasattr (ns : Namespace) (name : string) : bool :=
  match getattr ns name with Some _ => true | None => false end.

Fixpoint setattr (ns : Namespace) (name : string) (v : PyObj) : Namespace :=
  match ns with
  | [] => [(name, v)]
  | (n, v') :: ns' =>
      if String.eqb n name then (n, v) :: ns' else (n, v') :: setattr ns' name v
  end.

(** [d[key]] / [key in d] for the option-string table. *)
Fixpoint lookup_option (table : list (string * Action)) (key : string)
    : option Action :=
  match table with
  | [] => None
  | (k, a) :: table' =>
      if String.eqb k key then Some a else lookup_option table' key
  end.

(** ** Building the parser *)

(** [_negative_number_matcher = re.compile(r'^-\d+$|^-\d*\.\d+$')] *)
Definition _negative_number_matcher (s : string) : bool :=
  re_matches [Chr "-"; Chr digits; Star digits; Dollar] s
  || re_matches [Chr "-"; Star digits; Chr "."; Chr digits; Star digits; Dollar] s.

(** [s.lstrip(chars)] *)
Fixpoint lstrip (s chars : string) : string :=
  match s with
  | String c s' => if char_in c chars then lstrip s' chars else s
  | EmptyString => EmptyString
  end.

(** [s.replace(a, b)] for single characters. *)
Fixpoint replace_char (s : string) (a b : ascii) : string :=
  match s with
  | String c s' => String (if Ascii.eqb c a then b else c) (replace_char s' a b)
  | EmptyString => EmptyString
  end.

(** [s[0] in chars] and [s[1] in chars] (false when there is no such
    character). *)
Definition first_char_in (s chars : string) : bool :=
  match s with String c _ => char_in c chars | EmptyString => false end.

Definition second_char_in (s chars : string) : bool :=
  match s with String _ (String c _) => char_in c chars | _ => false end.

(** [_add_action]: append to [_actions], index by option string, note
    option strings that look like negative numbers.  (The conflict check
    is omitted: no option string is registered twice here.) *)
Definition _add_action (self : ArgumentParser) (action : Action) : ArgumentParser :=
  {| prog := prog self;
     prefix_chars := prefix_chars self;
     add_help := add_help self;
     allow_abbrev := allow_abbrev self;
     exit_on_error := exit_on_error self;
     _actions := _actions self ++ [action];
     _option_string_actions :=
       _option_string_actions self
         ++ map (fun o => (o, action)) (option_strings action);
     _has_negative_number_optionals :=
       if existsb _negative_number_matcher (option_strings action)
          && negb (existsb id (_has_negative_number_optionals self))
       then _has_negative_number_optionals self ++ [true]
       else _has_negative_number_optionals self |}.

(** Keyword arguments of [add_argument]; [None] where one is not given. *)
Record kwargs := {
  kw_action : option string;
  kw_nargs : option Nargs;
  kw_type : option FileType;
  kw_default : option PyObj;
  kw_help : option string
}.

(** [_get_optional_kwargs]: the destination inferred from the first long
    option string, else from the first option string. *)
Definition infer_dest (self : ArgumentParser) (names : list string) : string :=
  let long_option_strings :=
    filter (fun o => (1 <? String.length o)%nat && second_char_in o (prefix_chars self))
           names in
  let dest_option_string :=
    match long_option_strings with
    | o :: _ => o
    | [] => hd "" names
    end in
  replace_char (lstrip dest_option_string (prefix_chars self)) "-" "_".

(** [add_argument(names..., kw...)].  One name that does not start with a
    prefix character declares a positional, anything else an optional.
    ['help'] selects [_HelpAction] (which fixes [nargs=0]), no action
    selects [_StoreAction]. *)
Definition add_argument (self : ArgumentParser) (names : list string)
    (kw : kwargs) : ArgumentParser :=
  let positional :=
    match names with
    | [] => true
    | [name] => negb (first_char_in name (prefix_chars self))
    | _ => false
    end in
  let dest_ := if positional then hd "" names else infer_dest self names in
  let option_strings_ := if positional then [] else names in
  let nargs_ := match kw_nargs kw with Some n => n | None => nargs_None end in
  let required_ :=
    positional
    && (match kw_nargs kw with Some ZERO_OR_MORE => false | _ => true end
        || match kw_nargs kw, kw_default kw with
           | Some ZERO_OR_MORE, None => true
           | _, _ => false
           end) in
  let default_ := match kw_default kw with Some d => d | None => PyNone end in
  let action :=
    match kw_action kw with
    | Some "help" =>
        {| action_class := _HelpAction; option_strings := option_strings_;
           dest := dest_; nargs := nargs_int 0; default := default_;
           type := None; required := false; help := kw_help kw |}
    | _ =>
        {| action_class := _StoreAction; option_strings := option_strings_;
           dest := dest_; nargs := nargs_; default := default_;
           type := kw_type kw; required := required_; help := kw_help kw |}
    end in
  _add_action self action.

(** [ArgumentParser()], every keyword at its default: [prog] is the base
    name of [sys.argv[0]], the prefix character is ['-'], and since
    [add_help=True] the parser starts with the [-h]/[--help] action. *)
Definition ArgumentParser_init : Py ArgumentParser :=
  a0 <- sys_argv_0 ;;
  let self :=
    {| prog := os_path_basename a0;
       prefix_chars := "-";
       add_help := true;
       allow_abbrev := true;
       exit_on_error := true;
       _actions := [];
       _option_string_actions := [];
       _has_negative_number_optionals := [] |} in
  let default_prefix :=
    if str_in "-" (prefix_chars self) then "-"
    else match prefix_chars self with String c _ => String c "" | _ => "" end in
  if add_help self then
    ret (add_argument self
           [default_prefix +:+ "h"; default_prefix +:+ default_prefix +:+ "help"]
           {| kw_action := Some "help"; kw_nargs := None; kw_type := None;
              kw_default := Some (PyStr SUPPRESS);
              kw_help := Some "show this help message and exit" |})
  else ret self.

(** The actions with and without option strings. *)
Definition _get_optional_actions (self : ArgumentParser) : list Action :=
  filter (fun a => negb (bool_decide (option_strings a = []))) (_actions self).

Definition _get_positional_actions (self : ArgumentParser) : list Action :=
  filter (fun a => bool_decide (option_strings a = [])) (_actions self).

(** ** Usage and help text

    The layout [HelpFormatter] produces when no line has to be wrapped
    and every invocation column fits; optionals are rendered in their
    zero-argument form. *)

Fixpoint repeat_join (m : string) (n : nat) : string :=
  match n with
  | O => ""
  | S O => m
  | S n' => m +:+ " " +:+ repeat_join m n'
  end.

Definition _format_args (action : Action) (metavar : string) : string :=
  match nargs action with
  | nargs_None => metavar
  | nargs_int n => repeat_join metavar n
  | ZERO_OR_MORE => "[" +:+ metavar +:+ " ...]"
  end.

Definition usage_part (action : Action) : string :=
  match option_strings action with
  | [] => _format_args action (dest action)
  | o :: _ => "[" +:+ o +:+ "]"
  end.

Definition format_usage (self : ArgumentParser) : string :=
  "usage: " +:+
  join " " (prog self
            :: map usage_part (_get_optional_actions self)
            ++ map usage_part (_get_positional_actions self))
  +:+ nl.

Definition help_line (action : Action) : string :=
  let invocation :=
    match option_strings action with
    | [] => dest action
    | os => join ", " os
    end in
  "  " +:+ invocation +:+
  match help action with
  | Some h => "  " +:+ h
  | None => ""
  end +:+ nl.

Definition help_section (title : string) (actions : list Action) : string :=
  match actions with
  | [] => ""
  | _ => nl +:+ title +:+ ":" +:+ nl +:+ String.concat "" (map help_line actions)
  end.

Definition format_help (self : ArgumentParser) : string :=
  format_usage self
  +:+ help_section "positional arguments" (_get_positional_actions self)
  +:+ help_section "options" (_get_optional_actions self).

(** [_print_message]: an empty message is not written. *)
Definition _print_message (message : string) (file : OutStream) : Py unit :=
  if String.eqb message "" then ret tt else file_write file message.

Definition print_usage (self : ArgumentParser) (file : OutStream) : Py unit :=
  _print_message (format_usage self) file.

Definition print_help (self : ArgumentParser) : Py unit :=
  _print_message (format_help self) StdOut.

(** [exit(status, message)]: the message, if any, goes to [stderr]. *)
Definition exit {A} (self : ArgumentParser) (status : Z) (message : option string)
    : Py A :=
  match message with
  | Some m => if String.eqb m "" then ret tt else _print_message m StdErr
  | None => ret tt
  end ;;; sys_exit status.

(** [error(message)]: usage on [stderr], then exit with status 2. *)
Definition error {A} (self : ArgumentParser) (message : string) : Py A :=
  print_usage self StdErr ;;;
  exit self 2 (Some (prog self +:+ ": error: " +:+ message +:+ nl)).

(** [_get_action_name] (no metavar, no choices). *)
Definition _get_action_name (argument : Action) : option string :=
  match option_strings argument with
  | _ :: _ => Some (join "/" (option_strings argument))
  | [] => if String.eqb (dest argument) SUPPRESS then None else Some (dest argument)
  end.

(** [str(err)] for an [ArgumentError]. *)
Definition str_ArgumentError (argument_name : option string) (message : string)
    : string :=
  match argument_name with
  | None => message
  | Some n => "argument " +:+ n +:+ ": " +:+ message
  end.

(** ** Converting argument strings *)

(** [FileType.__call__]: ["-"] is a standard stream, anything else is
    opened; an [OSError] becomes an [ArgumentTypeError]. *)
Definition FileType_call (self : FileType) (string : string) : Py TextIO :=
  if String.eqb string "-" then
    if str_in "r" (_mode self) then ret sys_stdin
    else if str_in "w" (_mode self) || str_in "a" (_mode self)
            || str_in "x" (_mode self)
    then ret sys_stdout
    else raise (ValueError ("argument " +:+ dq +:+ "-" +:+ dq +:+ " with mode "
                       +:+ repr (_mode self)))
  else
    try_except (open string (_mode self))
      (fun e =>
         match e with
         | OSError errno filename =>
             Some (raise (ArgumentTypeError
                            ("can't open '" +:+ string +:+ "': "
                             +:+ str_OSError errno filename)))
         | _ => None
         end).

(** [_get_value]: apply the action's [type] (the identity when there is
    none); conversion errors become [ArgumentError]s of the action. *)
Definition _get_value (self : ArgumentParser) (action : Action)
    (arg_string : string) : Py PyObj :=
  try_except
    (match type action with
     | None => ret (PyStr arg_string)
     | Some type_func => f <- FileType_call type_func arg_string ;; ret (PyFile f)
     end)
    (fun e =>
       match e with
       | ArgumentTypeError msg =>
           Some (raise (ArgumentError (_get_action_name action) msg))
       | ValueError _ =>
           let name :=
             match type action with
             | Some t => "FileType(" +:+ repr (_mode t) +:+ ")"
             | None => "None"
             end in
           Some (raise (ArgumentError (_get_action_name action)
                          ("invalid " +:+ name +:+ " value: " +:+ repr arg_string)))
       | _ => None
       end).

(** [_get_values]: the first ["--"] is dropped; a positional ['*'] without
    arguments yields its default, or the empty list when the default is
    [None]; [nargs=None] with one string yields one value; everything
    else yields a list.  (No action here has [choices], so
    [_check_value] does nothing.) *)
Definition _get_values (self : ArgumentParser) (action : Action)
    (arg_strings : list string) : Py PyObj :=
  let arg_strings :=
    match list_remove "--" arg_strings with
    | Some l => l
    | None => arg_strings
    end in
  match arg_strings, nargs action, option_strings action with
  | [], ZERO_OR_MORE, [] =>
      match default action with
      | PyNone => ret (PyList [])
      | d => ret d
      end
  | [arg_string], nargs_None, _ => _get_value self action arg_string
  | _, _, _ =>
      vs <- map_py (_get_value self action) arg_strings ;; ret (PyList vs)
  end.

(** ** Matching argument patterns *)

(** [_get_nargs_pattern]: the regular expression (one capture group) for
    an action; in the pattern string ['A'] is an argument, ['O'] an
    option and ['-'] the ["--"] separator.  [None] gives [-*A-*], ['*']
    gives [-*[A-]*], an integer [n] gives [n] times [A] with [-*] around
    and between.  For an optional action the dashes are removed from the
    expression. *)
Fixpoint int_pattern (n : nat) : list re_item :=
  match n with
  | O => []
  | S O => [Chr "A"]
  | S n' => Chr "A" :: Star "-" :: int_pattern n'
  end.

Fixpoint remove_char (c : ascii) (s : string) : string :=
  match s with
  | String c' s' => if Ascii.eqb c c' then remove_char c s' else String c' (remove_char c s')
  | EmptyString => EmptyString
  end.

Definition without_dashes (items : list re_item) : list re_item :=
  flat_map
    (fun it =>
       match it with
       | Star cls =>
           match remove_char "-" cls with
           | EmptyString => []
           | cls' => [Star cls']
           end
       | Chr cls => [Chr (remove_char "-" cls)]
       | Dollar => [Dollar]
       end) items.

Definition _get_nargs_pattern (action : Action) : list re_item :=
  let nargs_pattern :=
    match nargs action with
    | nargs_None => [Star "-"; Chr "A"; Star "-"]
    | ZERO_OR_MORE => [Star "-"; Star "A-"]
    | nargs_int n => Star "-" :: int_pattern n ++ [Star "-"]
    end in
  match option_strings action with
  | [] => nargs_pattern
  | _ => without_dashes nargs_pattern
  end.

(** The message of [_match_argument] when the pattern does not match:
    ["expected one argument"] for [None], else ["expected %s argument(s)"]
    with [nargs] itself. *)
Definition nargs_error (n : Nargs) : string :=
  match n with
  | nargs_None => "expected one argument"
  | nargs_int 1 => "expected 1 argument"
  | nargs_int n => "expected " +:+ str_nat n +:+ " arguments"
  | ZERO_OR_MORE => "expected * arguments"
  end.

(** [_match_argument]: how many argument strings the action takes from
    the pattern. *)
Definition _match_argument (self : ArgumentParser) (action : Action)
    (arg_strings_pattern : string) : Py nat :=
  match re_match_groups [_get_nargs_pattern action] arg_strings_pattern with
  | Some [n] => ret n
  | _ => raise (ArgumentError (_get_action_name action) (nargs_error (nargs action)))
  end.

(** [_match_arguments_partial]: the longest initial run of positionals
    whose patterns match, with the count for each. *)
Fixpoint _match_arguments_partial_from (i : nat) (actions : list Action)
    (arg_strings_pattern : string) : list nat :=
  match i with
  | O => []
  | S i' =>
      match re_match_groups (map _get_nargs_pattern (firstn i actions))
              arg_strings_pattern with
      | Some counts => counts
      | None => _match_arguments_partial_from i' actions arg_strings_pattern
      end
  end.

Definition _match_arguments_partial (self : ArgumentParser)
    (actions : list Action) (arg_strings_pattern : string) : list nat :=
  _match_arguments_partial_from (length actions) actions arg_strings_pattern.

(** ** Recognising option strings *)

Definition option_tuple : Type := option Action * string * option string.

(** [_get_option_tuples]: the options an unregistered string may stand
    for: abbreviations of long options, or a short option with its
    argument attached. *)
Definition _get_option_tuples (self : ArgumentParser) (option_string : string)
    : Py (list option_tuple) :=
  let chars := prefix_chars self in
  if first_char_in option_string chars && second_char_in option_string chars then
    if allow_abbrev self then
      let '(option_prefix, explicit_arg) :=
        if str_in "=" option_string
        then let '(a, b) := split1 "=" option_string in (a, Some b)
        else (option_string, None) in
      ret (flat_map
             (fun '(o, action) =>
                if startswith o option_prefix
                then [(Some action, o, explicit_arg)] else [])
             (_option_string_actions self))
    else ret []
  else if first_char_in option_string chars
          && negb (second_char_in option_string chars) then
    let option_prefix := option_string in
    let short_option_prefix := substring 0 2 option_string in
    let short_explicit_arg := str_from option_string 2 in
    ret (flat_map
           (fun '(o, action) =>
              if String.eqb o short_option_prefix
              then [(Some action, o, Some short_explicit_arg)]
              else if startswith o option_prefix
              then [(Some action, o, None)] else [])
           (_option_string_actions self))
  else error self ("unexpected option string: " +:+ option_string).

(** [_parse_optional]: [None] for a positional, else the option tuple;
    the action of the tuple is [None] for an option that is not
    registered. *)
Definition _parse_optional (self : ArgumentParser) (arg_string : string)
    : Py (option option_tuple) :=
  if String.eqb arg_string "" then ret None
  else if negb (first_char_in arg_string (prefix_chars self)) then ret None
  else
    match lookup_option (_option_string_actions self) arg_string with
    | Some action => ret (Some (Some action, arg_string, None))
    | None =>
        if (String.length arg_string =? 1)%nat then ret None
        else
          let before_eq :=
            if str_in "=" arg_string then
              let '(option_string, explicit_arg) := split1 "=" arg_string in
              match lookup_option (_option_string_actions self) option_string with
              | Some action => Some (Some action, option_string, Some explicit_arg)
              | None => None
              end
            else None in
          match before_eq with
          | Some t => ret (Some t)
          | None =>
              option_tuples <- _get_option_tuples self arg_string ;;
              match option_tuples with
              | _ :: _ :: _ =>
                  error self
                    ("ambiguous option: " +:+ arg_string +:+ " could match "
                     +:+ join ", " (map (fun t : option_tuple => snd (fst t))
                                        option_tuples))
              | [t] => ret (Some t)
              | [] =>
                  if _negative_number_matcher arg_string
                     && negb (existsb id (_has_negative_number_optionals self))
                  then ret None
                  else if str_in " " arg_string then ret None
                  else ret (Some (None, arg_string, None))
              end
          end
    end.

(** ** The parsing algorithm: [_parse_known_args] *)

(** The local variables that the nested functions of [_parse_known_args]
    share and update.  (There are no mutually exclusive groups, so the
    conflict bookkeeping is left out.) *)
Record frame := {
  namespace : Namespace;
  extras : list string;
  positionals : list Action;
  seen_actions : list Action
}.

(** Calling an action: [_HelpAction] prints the help and exits,
    [_StoreAction] sets the attribute. *)
Definition call_action (self : ArgumentParser) (action : Action)
    (namespace : Namespace) (values : PyObj) (option_string : option string)
    : Py Namespace :=
  match action_class action with
  | _HelpAction => print_help self ;;; exit self 0 None
  | _StoreAction => ret (setattr namespace (dest action) values)
  end.

(** [v is SUPPRESS] *)
Definition is_SUPPRESS (v : PyObj) : bool :=
  match v with PyStr s => String.eqb s SUPPRESS | _ => false end.

(** [take_action]: note the action as seen, convert its argument strings,
    and call it unless the value is [SUPPRESS]. *)
Definition take_action (self : ArgumentParser) (fr : frame) (action : Action)
    (argument_strings : list string) (option_string : option string) : Py frame :=
  let seen := action :: seen_actions fr in
  argument_values <- _get_values self action argument_strings ;;
  if is_SUPPRESS argument_values then
    ret {| namespace := namespace fr; extras := extras fr;
           positionals := positionals fr; seen_actions := seen |}
  else
    ns <- call_action self action (namespace fr) argument_values option_string ;;
    ret {| namespace := ns; extras := extras fr;
           positionals := positionals fr; seen_actions := seen |}.

(** The first pass: the index of every option string with its tuple, and
    the pattern string; everything after ["--"] is an argument. *)
Fixpoint classify (self : ArgumentParser) (i : nat) (arg_strings : list string)
    : Py (list (nat * option_tuple) * string) :=
  match arg_strings with
  | [] => ret ([], "")
  | arg_string :: rest =>
      if String.eqb arg_string "--" then
        ret ([], "-" +:+ String.concat "" (map (fun _ => "A") rest))
      else
        option_tuple <- _parse_optional self arg_string ;;
        r <- classify self (S i) rest ;;
        let '(indices, pattern) := r in
        match option_tuple with
        | None => ret (indices, "A" +:+ pattern)
        | Some t => ret ((i, t) :: indices, "O" +:+ pattern)
        end
  end.

(** [option_string_indices[i]] / [i in option_string_indices] *)
Fixpoint lookup_index (indices : list (nat * option_tuple)) (i : nat)
    : option option_tuple :=
  match indices with
  | [] => None
  | (j, t) :: indices' => if (i =? j)%nat then Some t else lookup_index indices' i
  end.

Section parse_known_args.
Variable self : ArgumentParser.
Variable arg_strings : list string.
Variable option_string_indices : list (nat * option_tuple).
Variable arg_strings_pattern : string.

(** [for action, args, option_string in action_tuples: take_action(...)] *)
Fixpoint take_actions (fr : frame)
    (action_tuples : list (Action * list string * string)) : Py frame :=
  match action_tuples with
  | [] => ret fr
  | (action, args, option_string) :: action_tuples' =>
      fr <- take_action self fr action args (Some option_string) ;;
      take_actions fr action_tuples'
  end.

(** [consume_optional], the branch without an explicit argument: the
    option takes its arguments from the following strings. *)
Definition consume_optional_following (fr : frame) (start_index : nat)
    (action : Action) (option_string : string)
    (action_tuples : list (Action * list string * string)) : Py (frame * nat) :=
  let start := S start_index in
  let selected_patterns := str_from arg_strings_pattern start in
  arg_count <- _match_argument self action selected_patterns ;;
  let stop := start + arg_count in
  let args := slice arg_strings start stop in
  fr <- take_actions fr (action_tuples ++ [(action, args, option_string)]) ;;
  ret (fr, stop).

(** [consume_optional], the [while True] loop for an option with an
    explicit argument ([-xyz] may stand for [-x -y -z]): every round
    takes one character off the explicit argument. *)
Fixpoint consume_optional_explicit (fr : frame) (start_index : nat)
    (action : Action) (option_string : string) (explicit_arg : string)
    (action_tuples : list (Action * list string * string))
    {struct explicit_arg} : Py (frame * nat) :=
  arg_count <- _match_argument self action "A" ;;
  let chars := prefix_chars self in
  match explicit_arg with
  | String c new_explicit_arg =>
      if (arg_count =? 0)%nat && negb (second_char_in option_string chars) then
        let action_tuples := action_tuples ++ [(action, [], option_string)] in
        let char := substring 0 1 option_string in
        let option_string' := char +:+ String c "" in
        match lookup_option (_option_string_actions self) option_string' with
        | Some action' =>
            match new_explicit_arg with
            | EmptyString =>
                consume_optional_following fr start_index action'
                  option_string' action_tuples
            | _ =>
                consume_optional_explicit fr start_index action'
                  option_string' new_explicit_arg action_tuples
            end
        | None =>
            raise (ArgumentError (_get_action_name action)
                     ("ignored explicit argument " +:+ repr explicit_arg))
        end
      else if (arg_count =? 1)%nat then
        let stop := S start_index in
        fr <- take_actions fr
                (action_tuples ++ [(action, [explicit_arg], option_string)]) ;;
        ret (fr, stop)
      else
        raise (ArgumentError (_get_action_name action)
                 ("ignored explicit argument " +:+ repr explicit_arg))
  | EmptyString =>
      if (arg_count =? 1)%nat then
        let stop := S start_index in
        fr <- take_actions fr
                (action_tuples ++ [(action, [explicit_arg], option_string)]) ;;
        ret (fr, stop)
      else
        raise (ArgumentError (_get_action_name action)
                 ("ignored explicit argument " +:+ repr explicit_arg))
  end.

Definition consume_optional (fr : frame) (start_index : nat) : Py (frame * nat) :=
  match lookup_index option_string_indices start_index with
  | None => raise (KeyError "start_index")
  | Some (None, _, _) =>
      ret ({| namespace := namespace fr;
              extras := extras fr ++ [nth start_index arg_strings ""];
              positionals := positionals fr;
              seen_actions := seen_actions fr |}, S start_index)
  | Some (Some action, option_string, Some explicit_arg) =>
      consume_optional_explicit fr start_index action option_string
        explicit_arg []
  | Some (Some action, option_string, None) =>
      consume_optional_following fr start_index action option_string []
  end.

(** [consume_positionals]: match as many of the remaining positionals
    as possible at [start_index], take their actions, and drop them
    from the list of positionals left. *)
Fixpoint take_positionals (fr : frame) (start_index : nat)
    (todo : list (Action * nat)) : Py (frame * nat) :=
  match todo with
  | [] => ret (fr, start_index)
  | (action, arg_count) :: todo' =>
      let args := slice arg_strings start_index (start_index + arg_count) in
      let start_index := start_index + arg_count in
      fr <- take_action self fr action args None ;;
      take_positionals fr start_index todo'
  end.

Definition consume_positionals (fr : frame) (start_index : nat) : Py (frame * nat) :=
  let selected_pattern := str_from arg_strings_pattern start_index in
  let arg_counts := _match_arguments_partial self (positionals fr) selected_pattern in
  r <- take_positionals fr start_index (combine (positionals fr) arg_counts) ;;
  let '(fr, start_index) := r in
  ret ({| namespace := namespace fr; extras := extras fr;
          positionals := skipn (length arg_counts) (positionals fr);
          seen_actions := seen_actions fr |}, start_index).

(** [max(option_string_indices)], or -1 when there is no option. *)
Definition max_option_string_index : Z :=
  fold_right (fun '(i, _) m => Z.max (Z.of_nat i) m) (-1)%Z option_string_indices.

(** [min([index for index in option_string_indices if index >= start])];
    [None] stands for the [ValueError] of [min] on an empty list. *)
Definition next_option_string_index (start_index : nat) : option nat :=
  fold_right
    (fun '(i, _) m =>
       if (start_index <=? i)%nat
       then Some (match m with Some j => Nat.min i j | None => i end)
       else m)
    None option_string_indices.

(** The main loop: positionals and optionals are consumed in turn until
    the last option string has been passed.  The index grows in every
    round; [fuel] bounds the number of rounds. *)
Fixpoint consume_loop (fuel : nat) (fr : frame) (start_index : nat)
    : Py (frame * nat) :=
  if (Z.of_nat start_index <=? max_option_string_index)%Z then
    match fuel with
    | O => fun st => (st, OutOfFuel)
    | S fuel' =>
        match next_option_string_index start_index with
        | None => raise (ValueError "min() arg is an empty sequence")
        | Some next_option_string_index =>
            let optional (fr : frame) (start_index : nat) : Py (frame * nat) :=
              let '(fr, start_index) :=
                match lookup_index option_string_indices start_index with
                | None =>
                    ({| namespace := namespace fr;
                        extras := extras fr
                          ++ slice arg_strings start_index next_option_string_index;
                        positionals := positionals fr;
                        seen_actions := seen_actions fr |},
                     next_option_string_index)
                | Some _ => (fr, start_index)
                end in
              r <- consume_optional fr start_index ;;
              let '(fr, start_index) := r in
              consume_loop fuel' fr start_index in
            if negb (start_index =? next_option_string_index)%nat then
              r <- consume_positionals fr start_index ;;
              let '(fr, positionals_end_index) := r in
              if (start_index <? positionals_end_index)%nat
              then consume_loop fuel' fr positionals_end_index
              else optional fr positionals_end_index
            else optional fr start_index
        end
    end
  else ret (fr, start_index).

(** After the loop: the names of the required actions that were not
    seen; a string default of an unseen action that is still in the
    namespace is converted. *)
Fixpoint check_required (actions : list Action) (fr : frame)
    : Py (frame * list string) :=
  match actions with
  | [] => ret (fr, [])
  | action :: actions' =>
      if negb (action_in action (seen_actions fr)) then
        if required action then
          r <- check_required actions' fr ;;
          let '(fr, names) := r in
          ret (fr, match _get_action_name action with
                   | Some n => n :: names
                   | None => names
                   end)
        else
          match default action, getattr (namespace fr) (dest action) with
          | PyStr d, Some (PyStr d') =>
              if String.eqb d d' then
                v <- _get_value self action d ;;
                check_required actions'
                  {| namespace := setattr (namespace fr) (dest action) v;
                     extras := extras fr; positionals := positionals fr;
                     seen_actions := seen_actions fr |}
              else check_required actions' fr
          | _, _ => check_required actions' fr
          end
      else check_required actions' fr
  end.

End parse_known_args.

Definition _parse_known_args (self : ArgumentParser) (arg_strings : list string)
    (namespace_ : Namespace) : Py (Namespace * list string) :=
  r <- classify self 0 arg_strings ;;
  let '(option_string_indices, arg_strings_pattern) := r in
  let fr := {| namespace := namespace_; extras := [];
               positionals := _get_positional_actions self;
               seen_actions := [] |} in
  r <- consume_loop self arg_strings option_string_indices arg_strings_pattern
         (S (length arg_strings)) fr 0 ;;
  let '(fr, start_index) := r in
  r <- consume_positionals self arg_strings arg_strings_pattern fr start_index ;;
  let '(fr, stop_index) := r in
  let fr := {| namespace := namespace fr;
               extras := extras fr ++ slice_from arg_strings stop_index;
               positionals := positionals fr;
               seen_actions := seen_actions fr |} in
  r <- check_required self (_actions self) fr ;;
  let '(fr, required_actions) := r in
  match required_actions with
  | _ :: _ =>
      error self ("the following arguments are required: "
                  +:+ join ", " required_actions)
  | [] => ret (namespace fr, extras fr)
  end.

(** [parse_known_args()]: the arguments are [sys.argv[1:]], the
    namespace starts with the defaults of the actions, and (since
    [exit_on_error] is set) an [ArgumentError] ends in [error].  (Only a
    sub-parser stores unrecognised arguments in the namespace; there is
    none, so that last step is left out.) *)
Definition parse_known_args (self : ArgumentParser) : Py (Namespace * list string) :=
  args <- sys_argv_from_1 ;;
  let namespace_ :=
    fold_left
      (fun ns action =>
         if negb (String.eqb (dest action) SUPPRESS)
            && negb (hasattr ns (dest action))
            && negb (is_SUPPRESS (default action))
         then setattr ns (dest action) (default action)
         else ns)
      (_actions self) [] in
  if exit_on_error self then
    try_except (_parse_known_args self args namespace_)
      (fun e =>
         match e with
         | ArgumentError argument_name message =>
             Some (error self (str_ArgumentError argument_name message))
         | _ => None
         end)
  else _parse_known_args self args namespace_.

(** [parse_args()]: leftover argument strings are an error. *)
Definition parse_args (self : ArgumentParser) : Py Namespace :=
  r <- parse_known_args self ;;
  let '(args, argv) := r in
  match argv with
  | _ :: _ => error self ("unrecognized arguments: " +:+ join " " argv)
  | [] => ret args
  end.

End argparse.

(* ===================================================================== *)
(** * typing                                                              *)
(* ===================================================================== *)

Module typing.

(** [def cast(typ, val): return val] *)
Definition cast {A : Type} (typ : string) (val : A) : A := val.

End typing.

(* ===================================================================== *)
(** * qodex/__main__.py                                                   *)
(* ===================================================================== *)

Module qodex.
Import Python.

(** [class QodexNamespace(typing.Protocol)]: a structural type, never
    instantiated.  At run time the value behind it is the
    [argparse.Namespace]; the protocol names what a caller may use:
    the attribute [files] and the two methods every namespace has. *)
Definition QodexNamespace : Type := argparse.Namespace.

(** [args.files], as the protocol types it: a list of text streams.
    [None] when the attribute is missing or holds something else. *)
Definition files (args : QodexNamespace) : option (list TextIO) :=
  match argparse.getattr args "files" with
  | Some (PyList l) =>
      fold_right
        (fun v acc =>
           match v, acc with
           | PyFile f, Some fs => Some (f :: fs)
           | _, _ => None
           end)
        (Some []) l
  | _ => None
  end.

(** [_get_args] and [_get_kwargs], "implemented by [argparse.Namespace]". *)
Definition _get_args (args : QodexNamespace) : list PyObj := [].
Definition _get_kwargs (args : QodexNamespace) : list (string * PyObj) := args.

(** [def parse_args() -> QodexNamespace].  The action that [add_argument]
    returns is not used. *)
Definition parse_args : Py QodexNamespace :=
  parser <- argparse.ArgumentParser_init ;;
  let parser :=
    argparse.add_argument parser ["files"]
      {| argparse.kw_action := None;
         argparse.kw_nargs := Some argparse.ZERO_OR_MORE;
         argparse.kw_type := Some {| argparse._mode := "r+" |};
         argparse.kw_default := None;
         argparse.kw_help := None |} in
  r <- argparse.parse_args parser ;;
  ret (typing.cast "QodexNamespace" r).

(** [def main() -> int] *)
Definition main : Py Z :=
  args <- parse_args ;;
  print "Hello Qodex!" ;;;
  ret os_EX_OK.

(** ** The module body

    What executing the module binds, statement by statement: four
    imports, the class, the two functions.  [def main] is the last
    statement of the file. *)
Inductive Global :=
| module_object (name : string)
| class_object (name : string) (bases : list string)
    (annotations : list (string * string)) (abstract_methods : list string)
| function_parse_args (f : Py QodexNamespace)
| function_main (f : Py Z).

(** [import name], for a module of the standard library. *)
Definition import_module (name : string) : Py Global := ret (module_object name).

(** The module, executed under the name [__name__] (["__main__"] with
    [python -m qodex], ["qodex.__main__"] when imported). *)
Definition exec_module (__name__ : string) : Py (list (string * Global)) :=
  abc <- import_module "abc" ;;
  argparse_ <- import_module "argparse" ;;
  os <- import_module "os" ;;
  typing_ <- import_module "typing" ;;
  ret [("abc", abc); ("argparse", argparse_); ("os", os); ("typing", typing_);
       ("QodexNamespace",
        class_object "QodexNamespace" ["typing.Protocol"]
          [("files", "list[typing.TextIO]")] ["_get_args"; "_get_kwargs"]);
       ("parse_args", function_parse_args parse_args);
       ("main", function_main main)].

(** ** Running the program *)

(** What is left of a run: the exit status (none if the run did not end),
    what was written, and the file system. *)
Record Run := {
  exit_status : option Z;
  written_stdout : string;
  written_stderr : string;
  fs_after : gmap string Inode
}.

(** Modelled from the spec: the launcher that calls [main] when [qodex] is
    run from the shell is not part of the source.  It starts a process on
    the ambient arguments and exits with what [main] returns ("exit codes:
    0 on normal completion; a non-zero status supplied by the underlying
    argument-parsing failure path"); an uncaught [SystemExit] exits with
    its code, any other uncaught exception with status 1. *)
Definition run (fs0 : gmap string Inode) (a0 : string) (a : list string) : Run :=
  let '(st, r) := main (fresh_process fs0 a0 a) in
  {| exit_status :=
       match r with
       | Normal status => Some status
       | Raise (SystemExit code) => Some code
       | Raise _ => Some 1%Z
       | OutOfFuel => None
       end;
     written_stdout := stdout st;
     written_stderr := stderr st;
     fs_after := fs st |}.

End qodex.

(* ===================================================================== *)
(** * Specification vocabulary                                           *)
(* ===================================================================== *)

Import Python.

(** ** The parser of the program

    [parse_args] always builds the same parser, up to the program name:
    the help action that [ArgumentParser()] adds, and the positional
    [files]. *)

Definition help_action : argparse.Action :=
  {| argparse.action_class := argparse._HelpAction;
     argparse.option_strings := ["-h"; "--help"];
     argparse.dest := "help";
     argparse.nargs := argparse.nargs_int 0;
     argparse.default := PyStr argparse.SUPPRESS;
     argparse.type := None;
     argparse.required := false;
     argparse.help := Some "show this help message and exit" |}.

Definition files_action : argparse.Action :=
  {| argparse.action_class := argparse._StoreAction;
     argparse.option_strings := [];
     argparse.dest := "files";
     argparse.nargs := argparse.ZERO_OR_MORE;
     argparse.default := PyNone;
     argparse.type := Some {| argparse._mode := "r+" |};
     argparse.required := true;
     argparse.help := None |}.

Definition parser_of (prog : string) : argparse.ArgumentParser :=
  {| argparse.prog := prog;
     argparse.prefix_chars := "-";
     argparse.add_help := true;
     argparse.allow_abbrev := true;
     argparse.exit_on_error := true;
     argparse._actions := [help_action; files_action];
     argparse._option_string_actions := [("-h", help_action); ("--help", help_action)];
     argparse._has_negative_number_optionals := [] |}.

(** The first two statements of [parse_args]: the parser it builds. *)
Definition built_parser : Py argparse.ArgumentParser :=
  parser <- argparse.ArgumentParser_init ;;
  ret (argparse.add_argument parser ["files"]
         {| argparse.kw_action := None;
            argparse.kw_nargs := Some argparse.ZERO_OR_MORE;
            argparse.kw_type := Some {| argparse._mode := "r+" |};
            argparse.kw_default := None;
            argparse.kw_help := None |}).

(** The name under which the parser reports: the base name of [sys.argv[0]]. *)
Definition prog_of (st : Process) : string := os_path_basename (argv0 st).

(** ** Vocabulary of the statements *)

(** The argument does not begin with a dash. *)
Definition dash_free (p : string) : Prop := argparse.first_char_in p "-" = false.

(** Why [open(p, "r+")] fails on a file system, if it does. *)
Definition rplus_errno (fs0 : gmap string Inode) (p : string) : option Errno :=
  if String.eqb p "" then Some ENOENT
  else match fs0 !! p with
       | None => Some ENOENT
       | Some ino =>
           if is_dir ino then Some EISDIR
           else if negb (may_read ino) || negb (may_write ino) then Some EACCES
           else None
       end.

(** The path names an existing regular file that may be read and written. *)
Definition can_open_rplus (fs0 : gmap string Inode) (p : string) : Prop :=
  p <> "" /\
  exists ino, fs0 !! p = Some ino /\ is_dir ino = false
              /\ may_read ino = true /\ may_write ino = true.

(** The stream that [open(p, "r+")] returns in state [st]. *)
Definition next_handle (st : Process) (p : string) : TextIO :=
  TextIOWrapper p "r+" (3 + length (open_files st)).

(** The streams that opening the paths [l] in order yields, when [n]
    files are open already. *)
Fixpoint handles (n : nat) (l : list string) : list TextIO :=
  match l with
  | [] => []
  | p :: l' => TextIOWrapper p "r+" (3 + n) :: handles (S n) l'
  end.

(** The state after the streams [hs] have been opened. *)
Definition opened (st : Process) (hs : list TextIO) : Process :=
  {| fs := fs st; argv0 := argv0 st; args := args st; stdout := stdout st;
     stderr := stderr st; open_files := open_files st ++ hs |}.


(** The [ArgumentError] of the [files] action for a path that cannot be
    opened. *)
Definition cant_open (p : string) (e : Errno) : exn :=
  ArgumentError (Some "files") ("can't open '" +:+ p +:+ "': " +:+ str_OSError e p).

(** The argument strings of the positional: the first ["--"] is dropped. *)
Definition strip (l : list string) : list string :=
  match list_remove "--" l with Some l' => l' | None => l end.

(** The arguments before the ["--"] separator, if there is one. *)
Fixpoint before_separator (arg_strings : list string) : list string :=
  match arg_strings with
  | [] => []
  | a :: rest => if String.eqb a "--" then [] else a :: before_separator rest
  end.

(** A file system with two ordinary files, for the examples. *)
Definition rw_file : Inode :=
  {| is_dir := false; may_read := true; may_write := true; content := "text" |}.

Definition fs_ab : gmap string Inode :=
  <["a.txt" := rw_file]> (<["b.txt" := rw_file]> ∅).

(** ** Vocabulary of the proofs *)

(** The option tuples this parser can produce: none (a positional), an
    unknown option, or the help action under one of its two names. *)
Definition tuple_ok (r : option argparse.option_tuple) : Prop :=
  match r with
  | None => True
  | Some (None, _, None) => True
  | Some (None, _, Some _) => False
  | Some (Some a, o, _) => a = help_action /\ (o = "-h" \/ o = "--help")
  end.

(** [_get_option_tuples] finds at most one candidate, the help action. *)
Definition tuples_ok (l : list argparse.option_tuple) : Prop :=
  l = [] \/ exists o e, l = [(Some help_action, o, e)] /\ (o = "-h" \/ o = "--help").

(** What [_parse_optional] answers for an argument string; the answer does
    not depend on the process state. *)
Definition optional_of (prog s : string) : option argparse.option_tuple :=
  match argparse._parse_optional (parser_of prog) s (fresh_process ∅ "" []) with
  | (_, Normal r) => r
  | _ => None
  end.

(** The first pass ([classify]) as a function of the argument strings. *)
Fixpoint classify_pure (prog : string) (i : nat) (arg_strings : list string)
    : list (nat * argparse.option_tuple) * string :=
  match arg_strings with
  | [] => ([], "")
  | arg_string :: rest =>
      if String.eqb arg_string "--" then
        ([], "-" +:+ String.concat "" (map (fun _ => "A") rest))
      else
        let '(indices, pattern) := classify_pure prog (S i) rest in
        match optional_of prog arg_string with
        | None => (indices, "A" +:+ pattern)
        | Some t => ((i, t) :: indices, "O" +:+ pattern)
        end
  end.

(** Length of the longest prefix of [s] made of characters of [cls]. *)
Fixpoint span (cls s : string) : nat :=
  match s with
  | String c s' => if char_in c cls then S (span cls s') else 0
  | EmptyString => 0
  end.

(** The two actions of the parser. *)
Definition known (a : argparse.Action) : Prop := a = help_action \/ a = files_action.

(** Action tuples that all carry the help action. *)
Definition help_tuples (l : list (argparse.Action * list string * string)) : Prop :=
  Forall (fun t => fst (fst t) = help_action) l.

(** The positionals still to be parsed: the [files] action, or nothing. *)
Definition positionals_ok (fr : argparse.frame) : Prop :=
  argparse.positionals fr = [files_action] \/ argparse.positionals fr = [].

(** Nothing observable happened between two states (files may have
    been opened). *)
Definition quiet (st st' : Process) : Prop :=
  fs st' = fs st /\ argv0 st' = argv0 st /\ args st' = args st
  /\ stdout st' = stdout st /\ stderr st' = stderr st.

Section Outcome_vocabulary.
Variable prog : string.

(** The help message was printed, and nothing else. *)
Definition helped (st st' : Process) : Prop :=
  fs st' = fs st /\ argv0 st' = argv0 st /\ args st' = args st
  /\ stdout st' = stdout st +:+ argparse.format_help (parser_of prog)
  /\ stderr st' = stderr st.

(** A diagnostic (usage and error line) was written, and nothing else. *)
Definition erred (st st' : Process) : Prop :=
  fs st' = fs st /\ argv0 st' = argv0 st /\ args st' = args st
  /\ stdout st' = stdout st
  /\ exists message,
       stderr st' = (stderr st +:+ argparse.format_usage (parser_of prog))
                    +:+ (prog +:+ ": error: " +:+ message +:+ nl).

(** [triple m Q]: [m] ends normally in a state that is [quiet] and with
    a value satisfying [Q], or raises an [ArgumentError] quietly, or
    exits with status 0 after printing the help, or exits with status 2
    after writing a diagnostic.  It never runs out of fuel. *)
Definition triple {A} (m : Py A) (Q : A -> Prop) : Prop :=
  forall st,
    match m st with
    | (st', Normal a) => quiet st st' /\ Q a
    | (st', Raise (ArgumentError _ _)) => quiet st st'
    | (st', Raise (SystemExit c)) =>
        (c = 0%Z /\ helped st st') \/ (c = 2%Z /\ erred st st')
    | _ => False
    end.

(** The state after [error(message)]. *)
Definition diagnosed (st : Process) (message : string) : Process :=
  {| fs := fs st; argv0 := argv0 st; args := args st; stdout := stdout st;
     stderr := (stderr st +:+ argparse.format_usage (parser_of prog))
               +:+ (prog +:+ ": error: " +:+ message +:+ nl);
     open_files := open_files st |}.

(** Opening the paths [l] one after the other, as the [files] action does. *)
Definition open_each (l : list string) : Py (list PyObj) :=
  map_py (argparse._get_value (parser_of prog) files_action) l.

(** How a parse ends: normally, quietly and only when the first pass found
    no option string; or with status 0 after the help; or with status 2
    after a diagnostic. *)
Definition parse_result (st : Process) (r : Process * completion argparse.Namespace)
    : Prop :=
  match r with
  | (st', Normal ns) => quiet st st' /\ fst (classify_pure prog 0 (args st)) = []
  | (st', Raise (SystemExit c)) =>
      (c = 0%Z /\ helped st st') \/ (c = 2%Z /\ erred st st')
  | _ => False
  end.

Variable arg_strings : list string.
Variable indices : list (nat * argparse.option_tuple).
Variable pattern : string.

(** One round of the loop after the positionals: the strings before the
    next option become extras, the option is consumed, the loop goes on. *)
Definition optional_step (fuel nxt : nat) (fr : argparse.frame) (start_index : nat)
    : Py (argparse.frame * nat) :=
  let '(fr, start_index) :=
    match argparse.lookup_index indices start_index with
    | None =>
        ({| argparse.namespace := argparse.namespace fr;
            argparse.extras :=
              argparse.extras fr ++ slice arg_strings start_index nxt;
            argparse.positionals := argparse.positionals fr;
            argparse.seen_actions := argparse.seen_actions fr |}, nxt)
    | Some _ => (fr, start_index)
    end in
  r <- argparse.consume_optional (parser_of prog) arg_strings indices pattern
         fr start_index ;;
  let '(fr, start_index) := r in
  argparse.consume_loop (parser_of prog) arg_strings indices pattern fuel fr
    start_index.

End Outcome_vocabulary.

(** What a run of [main] does to the process, in every case. *)
Definition main_result (st : Process) (r : Process * completion Z) : Prop :=
  match r with
  | (st', Normal status) =>
      status = 0%Z /\ fs st' = fs st
      /\ stdout st' = stdout st +:+ ("Hello Qodex!" +:+ nl)
      /\ stderr st' = stderr st
  | (st', Raise (SystemExit c)) =>
      (c = 0%Z /\ helped (prog_of st) st st') \/ (c = 2%Z /\ erred (prog_of st) st st')
  | _ => False
  end.

(** ** Vocabulary of the further properties *)

(** The streams that the [files] action yields for the argument strings
    [l] when [n] files are open already: standard input for ["-"], a new
    stream in mode [r+] for any other string. *)
Fixpoint streams (n : nat) (l : list string) : list TextIO :=
  match l with
  | [] => []
  | p :: l' =>
      if String.eqb p "-" then sys_stdin :: streams n l'
      else TextIOWrapper p "r+" (3 + n) :: streams (S n) l'
  end.

(** The argument strings that name a path: all but ["-"]. *)
Definition paths (l : list string) : list string :=
  List.filter (fun p => negb (String.eqb p "-")) l.

(** The name of the stream that an argument string stands for. *)
Definition name_of_argument (p : string) : string :=
  if String.eqb p "-" then "<stdin>" else p.

(** The first string of [l] that names a path which cannot be opened, with
    the strings before it and the reason. *)
Fixpoint first_unopenable (fs0 : gmap string Inode) (l : list string)
    : option (list string * string * Errno) :=
  match l with
  | [] => None
  | p :: l' =>
      let later :=
        match first_unopenable fs0 l' with
        | Some (pre, q, e) => Some (p :: pre, q, e)
        | None => None
        end in
      if String.eqb p "-" then later
      else match rplus_errno fs0 p with
           | Some e => Some ([], p, e)
           | None => later
           end
  end.

(** The argument string is ["-"] or names a file that can be opened. *)
Definition stream_or_file (fs0 : gmap string Inode) (p : string) : Prop :=
  p = "-" \/ can_open_rplus fs0 p.

(** The descriptor of a stream; it tells the streams of a process apart. *)
Definition descriptor (h : TextIO) : nat :=
  match h with
  | sys_stdin => 0
  | sys_stdout => 1
  | TextIOWrapper _ _ fileno => fileno
  end.

(** A stream of the kind that [FileType("r+")] returns. *)
Definition rplus_stream (h : TextIO) : Prop :=
  h = sys_stdin \/ exists p n, h = TextIOWrapper p "r+" n.

(** A string of printable ASCII characters without quote or backslash:
    its [repr] is the string between single quotes. *)
Fixpoint plain (s : string) : bool :=
  match s with
  | EmptyString => true
  | String c s' =>
      (32 <=? nat_of_ascii c)%nat && (nat_of_ascii c <? 127)%nat
      && negb (Ascii.eqb c "039") && negb (Ascii.eqb c "092") && plain s'
  end.

(** How the parser of the program reads one argument string: as a path
    (a positional), as the help option, or as an option it does not know. *)
Inductive Reading := as_path | as_help | as_unknown_option.

(** The text before the first ['='], or the whole string. *)
Definition before_equals (s : string) : string :=
  if str_in "=" s then fst (split1 "=" s) else s.

(** The reading in closed form.  A string shorter than two characters or
    not starting with ['-'] is a path; one starting with [-h], or with
    [--] and whose text before ['='] is a prefix of [--help], is the help
    option; any other is a path when it looks like a negative number or
    holds a space, and an unknown option otherwise. *)
Definition reading (s : string) : Reading :=
  match s with
  | String c1 (String c2 _) =>
      if negb (Ascii.eqb c1 "-") then as_path
      else if Ascii.eqb c2 "h" then as_help
      else if Ascii.eqb c2 "-" && String.prefix (before_equals s) "--help" then as_help
      else if argparse._negative_number_matcher s || str_in " " s then as_path
      else as_unknown_option
  | _ => as_path
  end.

(** The answer of [_parse_optional] that goes with a reading. *)
Definition read_as (s : string) (r : option argparse.option_tuple) : Prop :=
  match reading s with
  | as_path => r = None
  | as_help =>
      exists o e, r = Some (Some help_action, o, e) /\ (o = "-h" \/ o = "--help")
  | as_unknown_option => r = Some (None, s, None)
  end.

(** [n] times the character [c]. *)
Fixpoint run_of (c : ascii) (n : nat) : string :=
  match n with
  | O => ""
  | S n' => String c (run_of c n')
  end.

(** The frame with other leftover strings. *)
Definition with_extras (fr : argparse.frame) (x : list string) : argparse.frame :=
  {| argparse.namespace := argparse.namespace fr;
     argparse.extras := x;
     argparse.positionals := argparse.positionals fr;
     argparse.seen_actions := argparse.seen_actions fr |}.

(** Where the main loop stops when started at [start]: after the last
    option string. *)
Definition loop_stop (indices : list (nat * argparse.option_tuple)) (start : nat) : nat :=
  if (Z.of_nat start <=? argparse.max_option_string_index indices)%Z
  then Z.to_nat (argparse.max_option_string_index indices + 1)
  else start.

(** The tuple of an option that is not registered. *)
Definition unknown_tuple (t : argparse.option_tuple) : Prop :=
  exists o, t = (None, o, None).

(* ===================================================================== *)
(** * Verification                                                        *)
(* ===================================================================== *)

Lemma built_parser_eq (st : Process) :
  built_parser st = (st, Normal (parser_of (os_path_basename (argv0 st)))).
Proof. reflexivity. Qed.

Lemma lookup_option_table prog k a :
  argparse.lookup_option (argparse._option_string_actions (parser_of prog)) k = Some a ->
  a = help_action /\ (k = "-h" \/ k = "--help").
Proof.
  cbn [argparse._option_string_actions parser_of argparse.lookup_option].
  destruct (String.eqb "-h" k) eqn:E1.
  - apply String.eqb_eq in E1. intros [= <-]. auto.
  - destruct (String.eqb "--help" k) eqn:E2; [|discriminate].
    apply String.eqb_eq in E2. intros [= <-]. auto.
Qed.

Lemma substring_0_0 s : substring 0 0 s = "".
Proof. destruct s; reflexivity. Qed.

Lemma char_in_dash c : char_in c "-" = Ascii.eqb c "-".
Proof. cbn [char_in]. apply orb_false_r. Qed.

Lemma get_option_tuples_ok prog c2 s2 :
  exists l, tuples_ok l /\
    forall st, argparse._get_option_tuples (parser_of prog) (String "-" (String c2 s2)) st
               = (st, Normal l).
Proof.
  unfold argparse._get_option_tuples.
  cbn [argparse.first_char_in argparse.second_char_in argparse.prefix_chars parser_of
       argparse.allow_abbrev].
  rewrite !char_in_dash, Ascii.eqb_refl. cbn [andb].
  destruct (Ascii.eqb c2 "-") eqn:E2; cbn [negb].
  + apply Ascii.eqb_eq in E2. subst c2.
    assert (H : forall op e,
      tuples_ok (flat_map
            (fun '(o, action) =>
               if startswith o (String "-" (String "-" op))
               then [(Some action, o, e)]
               else [])
            (argparse._option_string_actions (parser_of prog)))).
    { intros op e. cbn [flat_map argparse._option_string_actions parser_of app].
      replace (startswith "-h" (String "-" (String "-" op))) with false.
      2:{ unfold startswith. cbn. reflexivity. }
      destruct (startswith "--help" _); [right|left]; eauto. }
    destruct (str_in "=" _).
    * cbn [split1]. replace (Ascii.eqb "-" "=") with false by reflexivity.
      destruct (split1 "=" s2) as [a b]. eexists; split; [apply H|reflexivity].
    * eexists; split; [apply H|reflexivity].
  + eexists; split; [|reflexivity].
    cbn [flat_map argparse._option_string_actions parser_of app].
    cbn [substring str_from]. rewrite substring_0_0.
    replace ("--help" =? String "-" (String c2 ""))%string with false.
    2:{ cbn [String.eqb]. rewrite Ascii.eqb_refl.
        destruct (Ascii.eqb "-" c2); reflexivity. }
    replace (startswith "--help" (String "-" (String c2 s2))) with false.
    2:{ unfold startswith. cbn [String.prefix].
        destruct (ascii_dec "-" "-"); [|congruence].
        destruct (ascii_dec c2 "-") as [->|]; [|reflexivity].
        discriminate. }
    rewrite app_nil_r.
    destruct (String.eqb _ _); [right; eauto|].
    destruct (startswith _ _); [right|left]; eauto.
Qed.

Lemma parse_optional_ok prog s :
  exists r, tuple_ok r /\
    forall st, argparse._parse_optional (parser_of prog) s st = (st, Normal r).
Proof.
  unfold argparse._parse_optional.
  destruct s as [|c1 s1]; [simpl; eexists; split; [|intros; reflexivity]; exact I|].
  cbn [String.eqb argparse.first_char_in].
  replace (argparse.prefix_chars (parser_of prog)) with "-" by reflexivity.
  rewrite char_in_dash.
  destruct (Ascii.eqb c1 "-") eqn:E1; cbn [negb];
    [|eexists; split; [|intros; reflexivity]; exact I].
  apply Ascii.eqb_eq in E1. subst c1.
  destruct (argparse.lookup_option _ (String "-" s1)) as [a|] eqn:L.
  { apply lookup_option_table in L as [-> L]. eexists; split; [|reflexivity].
    cbn. auto. }
  destruct s1 as [|c2 s2]; [eexists; split; [|intros; reflexivity]; exact I|].
  replace (String.length (String "-" (String c2 s2)) =? 1)%nat with false by reflexivity.
  match goal with |- context [match ?b with Some t => ret (Some t) | None => _ end] =>
    destruct b as [t|] eqn:B end.
  { eexists; split; [|reflexivity].
    destruct (str_in "=" _); [|discriminate].
    destruct (split1 "=" _) as [o e].
    destruct (argparse.lookup_option _ o) eqn:L2; [|discriminate].
    apply lookup_option_table in L2 as [-> L2]. injection B as <-. cbn. auto. }
  unfold bind.
  destruct (get_option_tuples_ok prog c2 s2) as (l & Hl & El).
  destruct Hl as [->|(o & e & -> & Ho)].
  - cbn [argparse._has_negative_number_optionals parser_of existsb negb].
    rewrite andb_true_r.
    destruct (argparse._negative_number_matcher _).
    { eexists; split; [|intros st; rewrite El; reflexivity]. exact I. }
    destruct (str_in " " _);
      (eexists; split; [|intros st; rewrite El; reflexivity]); exact I.
  - eexists; split; [|intros st; rewrite El; reflexivity]. cbn. auto.
Qed.

Lemma parse_optional_dash_free prog s st :
  dash_free s -> argparse._parse_optional (parser_of prog) s st = (st, Normal None).
Proof.
  unfold dash_free, argparse._parse_optional. intros H.
  destruct (String.eqb s ""); [reflexivity|].
  cbn [argparse.prefix_chars parser_of]. rewrite H. reflexivity.
Qed.

Lemma parse_optional_eq prog s st :
  argparse._parse_optional (parser_of prog) s st = (st, Normal (optional_of prog s)).
Proof.
  destruct (parse_optional_ok prog s) as (r & _ & E).
  unfold optional_of. rewrite !E. reflexivity.
Qed.

Lemma optional_of_ok prog s : tuple_ok (optional_of prog s).
Proof.
  destruct (parse_optional_ok prog s) as (r & H & E).
  unfold optional_of. rewrite E. exact H.
Qed.

Lemma optional_of_dash_free prog s : dash_free s -> optional_of prog s = None.
Proof.
  intros H. unfold optional_of. rewrite parse_optional_dash_free by exact H. reflexivity.
Qed.

Lemma classify_eq prog i arg_strings st :
  argparse.classify (parser_of prog) i arg_strings st
  = (st, Normal (classify_pure prog i arg_strings)).
Proof.
  revert i st. induction arg_strings as [|a rest IH]; intros i st; [reflexivity|].
  cbn [argparse.classify classify_pure].
  destruct (String.eqb a "--"); [reflexivity|].
  unfold bind. rewrite parse_optional_eq, IH.
  destruct (classify_pure prog (S i) rest) as [ind pat].
  destruct (optional_of prog a); reflexivity.
Qed.

(** ** Opening a file for reading and updating *)

Lemma can_open_rplus_errno fs0 p : can_open_rplus fs0 p <-> rplus_errno fs0 p = None.
Proof.
  unfold can_open_rplus, rplus_errno. split.
  - intros (Hp & ino & -> & -> & -> & ->).
    destruct (String.eqb p "") eqn:E; [apply String.eqb_eq in E; contradiction|].
    reflexivity.
  - destruct (String.eqb p "") eqn:E; [discriminate|].
    apply String.eqb_neq in E. destruct (fs0 !! p) as [ino|]; [|discriminate].
    destruct (is_dir ino) eqn:D; [discriminate|].
    destruct (may_read ino) eqn:R; [|discriminate].
    destruct (may_write ino) eqn:W; [|discriminate].
    intros _. split; [exact E|]. exists ino. auto.
Qed.

Lemma open_rplus st p :
  open p "r+" st =
  match rplus_errno (fs st) p with
  | None => (with_open_file st (next_handle st p), Normal (next_handle st p))
  | Some e => (st, Raise (OSError e p))
  end.
Proof.
  unfold open, rplus_errno, next_handle.
  replace (str_in "x" "r+") with false by reflexivity.
  replace (str_in "w" "r+") with false by reflexivity.
  replace (str_in "a" "r+") with false by reflexivity.
  replace (str_in "+" "r+") with true by reflexivity.
  replace (str_in "r" "r+") with true by reflexivity.
  cbn [orb andb].
  destruct (String.eqb p ""); [reflexivity|].
  destruct (fs st !! p) as [ino|]; [|reflexivity].
  destruct (is_dir ino); [reflexivity|].
  destruct (may_read ino), (may_write ino); reflexivity.
Qed.

Lemma get_value_files prog p st :
  argparse._get_value (parser_of prog) files_action p st =
  if String.eqb p "-" then (st, Normal (PyFile sys_stdin))
  else match rplus_errno (fs st) p with
       | None => (with_open_file st (next_handle st p), Normal (PyFile (next_handle st p)))
       | Some e => (st, Raise (cant_open p e))
       end.
Proof.
  unfold argparse._get_value, argparse.FileType_call, try_except, bind, raise, cant_open.
  cbn [argparse.type files_action argparse._mode].
  destruct (String.eqb p "-"); [reflexivity|].
  rewrite open_rplus. destruct (rplus_errno (fs st) p); reflexivity.
Qed.

(** ** The pattern of a ['*'] positional *)

Lemma match_star_cons {R} cls items c s n (k : nat -> string -> option R) :
  match_items (Star cls :: items) (String c s) n k =
  if char_in c cls then
    match match_items (Star cls :: items) s (S n) k with
    | Some r => Some r
    | None => match_items items (String c s) n k
    end
  else match_items items (String c s) n k.
Proof. reflexivity. Qed.

Lemma match_star_nil {R} cls items n (k : nat -> string -> option R) :
  match_items (Star cls :: items) "" n k = match_items items "" n k.
Proof. reflexivity. Qed.

Lemma match_star_last cls s n :
  match_items [Star cls] s n (fun n _ => Some [n]) = Some [n + span cls s].
Proof.
  revert n. induction s as [|c s IH]; intros n.
  - cbn. f_equal. f_equal. lia.
  - rewrite match_star_cons. cbn [span].
    destruct (char_in c cls).
    + rewrite IH. f_equal. f_equal. lia.
    + cbn. f_equal. f_equal. lia.
Qed.

Lemma match_star_positional s n :
  match_items [Star "-"; Star "A-"] s n (fun n _ => Some [n]) = Some [n + span "A-" s].
Proof.
  revert n. induction s as [|c s IH]; intros n.
  - cbn. f_equal. f_equal. lia.
  - rewrite match_star_cons. rewrite char_in_dash.
    destruct (Ascii.eqb c "-") eqn:E.
    + apply Ascii.eqb_eq in E. subst c. rewrite IH. cbn [span].
      replace (char_in "-" "A-") with true by reflexivity. f_equal. f_equal. lia.
    + apply match_star_last.
Qed.

Lemma match_positional_files s :
  re_match_groups [argparse._get_nargs_pattern files_action] s = Some [span "A-" s].
Proof.
  cbn [re_match_groups argparse._get_nargs_pattern files_action argparse.nargs
       argparse.option_strings option_map].
  apply match_star_positional.
Qed.

Lemma span_le cls s k c :
  String.get k s = Some c -> char_in c cls = false -> span cls s <= k.
Proof.
  revert k. induction s as [|c' s IH]; intros k; [cbn; lia|].
  cbn [span]. destruct k as [|k]; cbn [String.get].
  - intros [= ->] ->. lia.
  - intros H1 H2. destruct (char_in c' cls); [|lia].
    specialize (IH k H1 H2). lia.
Qed.

Lemma span_all cls s :
  (forall k c, String.get k s = Some c -> char_in c cls = true) ->
  span cls s = String.length s.
Proof.
  induction s as [|c s IH]; intros H; [reflexivity|].
  cbn [span String.length]. rewrite (H 0 c eq_refl). f_equal.
  apply IH. intros k c' Hk. apply (H (S k) c'). exact Hk.
Qed.

(** ** Outcomes of parser code *)

Section Outcomes.
Variable prog : string.
Local Abbreviation P := (parser_of prog).

Lemma quiet_refl st : quiet st st.
Proof. repeat split. Qed.

Lemma quiet_trans st1 st2 st3 : quiet st1 st2 -> quiet st2 st3 -> quiet st1 st3.
Proof. unfold quiet. intuition congruence. Qed.

Lemma quiet_helped st1 st2 st3 : quiet st1 st2 -> helped prog st2 st3 -> helped prog st1 st3.
Proof. unfold quiet, helped. intuition congruence. Qed.

Lemma quiet_erred st1 st2 st3 : quiet st1 st2 -> erred prog st2 st3 -> erred prog st1 st3.
Proof.
  unfold quiet, erred. intros (?&?&?&?&?) (?&?&?&?&m&?).
  repeat split; try congruence. exists m. congruence.
Qed.

Lemma triple_ret {A} (a : A) (Q : A -> Prop) : Q a -> triple prog (ret a) Q.
Proof. intros H st. cbn. split; [apply quiet_refl|exact H]. Qed.

Lemma triple_raise {A} n m (Q : A -> Prop) : triple prog (raise (ArgumentError n m)) Q.
Proof. intros st. cbn. apply quiet_refl. Qed.

Lemma triple_bind {A B} (m : Py A) (k : A -> Py B) (Q : A -> Prop) (R : B -> Prop) :
  triple prog m Q -> (forall a, Q a -> triple prog (k a) R) -> triple prog (bind m k) R.
Proof.
  intros Hm Hk st. unfold bind. specialize (Hm st).
  destruct (m st) as [st1 [a|e|]]; [| |contradiction].
  - destruct Hm as [Hq Ha]. specialize (Hk a Ha st1).
    destruct (k a st1) as [st2 [b|e|]]; [| |contradiction].
    + destruct Hk. split; [eapply quiet_trans; eauto|assumption].
    + destruct e; try contradiction.
      * eapply quiet_trans; eauto.
      * destruct Hk as [[? ?]|[? ?]]; [left|right]; split; auto.
        -- eapply quiet_helped; eauto.
        -- eapply quiet_erred; eauto.
  - exact Hm.
Qed.

Lemma triple_weaken {A} (m : Py A) (Q R : A -> Prop) :
  triple prog m Q -> (forall a, Q a -> R a) -> triple prog m R.
Proof.
  intros Hm H st. specialize (Hm st).
  destruct (m st) as [st1 [a|e|]]; auto. destruct Hm; auto.
Qed.

Lemma append_nonempty a c b : String.eqb (a +:+ String c b) "" = false.
Proof. destruct a; reflexivity. Qed.

Lemma error_eq {A} message st :
  argparse.error (A:=A) P message st = (diagnosed prog st message, Raise (SystemExit 2)).
Proof.
  unfold argparse.error, argparse.exit, argparse.print_usage,
    argparse._print_message, bind, sys_exit, raise.
  replace (String.eqb (argparse.format_usage P) "") with false by reflexivity.
  cbn [file_write].
  replace (String.eqb (argparse.prog P +:+ ": error: " +:+ message +:+ nl) "")
    with false.
  2:{ symmetry. apply (append_nonempty _ ":" (" error: " +:+ message +:+ nl)). }
  reflexivity.
Qed.

Lemma erred_diagnosed st message : erred prog st (diagnosed prog st message).
Proof. repeat split. exists message. reflexivity. Qed.

Lemma triple_error {A} message (Q : A -> Prop) : triple prog (argparse.error P message) Q.
Proof.
  intros st. rewrite error_eq. right. split; [reflexivity|apply erred_diagnosed].
Qed.

Lemma error_exits {A} message st :
  exists st', argparse.error (A:=A) P message st = (st', Raise (SystemExit 2))
              /\ erred prog st st'.
Proof. rewrite error_eq. eexists. split; [reflexivity|apply erred_diagnosed]. Qed.

Lemma triple_help {A} (Q : A -> Prop) :
  triple prog (argparse.print_help P ;;; argparse.exit P 0 None) Q.
Proof.
  intros st. unfold argparse.exit, argparse.print_help,
    argparse._print_message, bind, sys_exit, raise.
  replace (String.eqb (argparse.format_help P) "") with false by reflexivity.
  cbn. left. split; [reflexivity|]. repeat split.
Qed.

Lemma quiet_with_open_file st h : quiet st (with_open_file st h).
Proof. repeat split. Qed.

Lemma triple_get_value a s :
  known a -> triple prog (argparse._get_value P a s) (fun _ => True).
Proof.
  intros [->| ->] st.
  - cbn. split; [apply quiet_refl|exact I].
  - rewrite get_value_files.
    destruct (String.eqb s "-"); [split; [apply quiet_refl|exact I]|].
    destruct (rplus_errno (fs st) s).
    + cbn. apply quiet_refl.
    + split; [apply quiet_with_open_file|exact I].
Qed.

Lemma triple_map_py {A B} (f : A -> Py B) l :
  (forall x, triple prog (f x) (fun _ => True)) -> triple prog (map_py f l) (fun _ => True).
Proof.
  intros H. induction l as [|x l IH]; cbn [map_py].
  - apply triple_ret. exact I.
  - eapply triple_bind; [apply H|]. intros y _.
    eapply triple_bind; [apply IH|]. intros ys _. apply triple_ret. exact I.
Qed.

Lemma triple_get_values a l :
  known a -> triple prog (argparse._get_values P a l) (fun v => argparse.is_SUPPRESS v = false).
Proof.
  intros Ha. unfold argparse._get_values.
  set (l' := match list_remove "--" l with Some l0 => l0 | None => l end).
  assert (Hlist : triple prog (vs <- map_py (argparse._get_value P a) l';; ret (PyList vs))
                    (fun v => argparse.is_SUPPRESS v = false)).
  { eapply triple_bind; [apply triple_map_py; intros; apply triple_get_value; exact Ha|].
    intros vs _. apply triple_ret. reflexivity. }
  destruct Ha as [->| ->]; cbn [argparse.nargs argparse.option_strings
                                argparse.default help_action files_action].
  - destruct l' as [|x [|y l'']]; exact Hlist.
  - destruct l' as [|x [|y l'']]; [apply triple_ret; reflexivity|exact Hlist..].
Qed.

(** Taking an action keeps the bookkeeping that the loop relies on; the
    help action never comes back. *)
Lemma triple_take_action fr a l o :
  known a ->
  triple prog (argparse.take_action P fr a l o)
    (fun fr' => argparse.extras fr' = argparse.extras fr
                /\ argparse.positionals fr' = argparse.positionals fr
                /\ a <> help_action).
Proof.
  intros Ha. unfold argparse.take_action.
  eapply triple_bind; [apply triple_get_values; exact Ha|].
  intros v Hv. rewrite Hv. unfold argparse.call_action.
  destruct Ha as [->| ->]; cbn [argparse.action_class help_action files_action].
  - eapply triple_bind; [apply (triple_help (fun _ => False))|]. intros ? [].
  - eapply triple_bind; [apply (triple_ret _ (fun _ => True)); exact I|]. intros ? _.
    apply triple_ret. cbn. repeat split. discriminate.
Qed.

(** *** The nested functions of [_parse_known_args] *)

Variable arg_strings : list string.
Variable indices : list (nat * argparse.option_tuple).
Variable pattern : string.

Lemma triple_match_argument_help pat :
  triple prog (argparse._match_argument P help_action pat) (fun n => n = 0).
Proof. intros st. cbn. split; [apply quiet_refl|reflexivity]. Qed.

Lemma triple_take_actions_help fr l :
  l <> [] -> help_tuples l -> triple prog (argparse.take_actions P fr l) (fun _ => False).
Proof.
  destruct l as [|[[a l0] o] l]; [congruence|]. intros _ H.
  inversion H as [|? ? Ha _]; subst. cbn in Ha. subst a.
  cbn [argparse.take_actions].
  eapply triple_bind; [apply triple_take_action; left; reflexivity|].
  intros fr' (_ & _ & Hne). congruence.
Qed.

Lemma triple_following_help fr start o l :
  help_tuples l ->
  triple prog (argparse.consume_optional_following P arg_strings pattern fr start
            help_action o l)
    (fun _ => False).
Proof.
  intros H. unfold argparse.consume_optional_following.
  eapply triple_bind; [apply triple_match_argument_help|]. intros n _.
  eapply triple_bind; [apply triple_take_actions_help|intros ? []].
  - destruct l; discriminate.
  - apply Forall_app. split; [exact H|]. constructor; [reflexivity|constructor].
Qed.

Lemma triple_explicit_help e : forall fr start o l,
  help_tuples l ->
  triple prog (argparse.consume_optional_explicit P arg_strings pattern fr start
            help_action o e l)
    (fun _ => False).
Proof.
  induction e as [|c e IH]; intros fr start o l H;
    cbn [argparse.consume_optional_explicit];
    (eapply triple_bind; [apply triple_match_argument_help|]); intros n ->;
    cbn [Nat.eqb andb].
  - apply triple_raise.
  - destruct (negb _); [|apply triple_raise].
    destruct (argparse.lookup_option _ _) as [a|] eqn:L; [|apply triple_raise].
    apply lookup_option_table in L as [-> _].
    assert (H' : help_tuples (l ++ [(help_action, [], o)])).
    { apply Forall_app. split; [exact H|]. constructor; [reflexivity|constructor]. }
    destruct e; [apply triple_following_help|apply IH]; exact H'.
Qed.

Lemma triple_consume_optional fr start t :
  argparse.lookup_index indices start = Some t ->
  tuple_ok (Some t) ->
  triple prog (argparse.consume_optional P arg_strings indices pattern fr start)
    (fun r => snd r = S start /\ argparse.extras (fst r) <> []
              /\ argparse.positionals (fst r) = argparse.positionals fr).
Proof.
  intros L Ht. unfold argparse.consume_optional. rewrite L.
  destruct t as [[[a|] o] [e|]]; cbn in Ht.
  - destruct Ht as [-> _].
    eapply triple_weaken; [apply triple_explicit_help; constructor|]. intros ? [].
  - destruct Ht as [-> _].
    eapply triple_weaken; [apply triple_following_help; constructor|]. intros ? [].
  - contradiction.
  - apply triple_ret. cbn. repeat split. destruct (argparse.extras fr); discriminate.
Qed.

Lemma triple_take_positionals todo : forall fr start,
  Forall (fun t => known (fst t)) todo ->
  triple prog (argparse.take_positionals P arg_strings fr start todo)
    (fun r => argparse.extras (fst r) = argparse.extras fr
              /\ argparse.positionals (fst r) = argparse.positionals fr
              /\ snd r = start + list_sum (map snd todo)).
Proof.
  induction todo as [|[a n] todo IH]; intros fr start H;
    cbn [argparse.take_positionals].
  - apply triple_ret. cbn. repeat split. lia.
  - inversion H as [|? ? Ha Htodo]; subst. cbn in Ha.
    eapply triple_bind; [apply triple_take_action; exact Ha|].
    intros fr1 (E1 & E2 & _).
    eapply triple_weaken; [apply IH; exact Htodo|].
    intros [fr2 i2] (E3 & E4 & E5). cbn [fst snd] in *.
    repeat split; try congruence.
    change (list_sum (map snd ((a, n) :: todo))) with (n + list_sum (map snd todo)).
    lia.
Qed.

Lemma triple_consume_positionals fr start :
  positionals_ok fr ->
  triple prog (argparse.consume_positionals P arg_strings pattern fr start)
    (fun r => argparse.extras (fst r) = argparse.extras fr
              /\ argparse.positionals (fst r) = []
              /\ (snd r = start
                  \/ snd r = start + span "A-" (str_from pattern start))).
Proof.
  intros [E|E]; unfold argparse.consume_positionals; rewrite E.
  - unfold argparse._match_arguments_partial.
    cbn [length argparse._match_arguments_partial_from firstn map].
    rewrite match_positional_files.
    eapply triple_bind.
    { apply triple_take_positionals. constructor; [right; reflexivity|constructor]. }
    intros [fr1 i1] (E1 & E2 & E3). apply triple_ret. cbn in *.
    split; [congruence|]. split; [rewrite E2, E; reflexivity|]. right. lia.
  - cbn [argparse._match_arguments_partial length
         argparse._match_arguments_partial_from combine].
    eapply triple_bind; [apply triple_take_positionals; constructor|].
    intros [fr1 i1] (E1 & E2 & E3). apply triple_ret. cbn in *.
    split; [congruence|]. split; [rewrite E2, E; reflexivity|]. left. lia.
Qed.

(** *** The main loop *)

Abbreviation max_index := (argparse.max_option_string_index indices).
Abbreviation next_index := (argparse.next_option_string_index indices).

Lemma next_index_spec start nxt :
  next_index start = Some nxt ->
  start <= nxt /\ (exists t, argparse.lookup_index indices nxt = Some t)
  /\ (Z.of_nat nxt <= max_index)%Z.
Proof.
  unfold argparse.next_option_string_index, argparse.max_option_string_index.
  revert nxt. induction indices as [|[i t] rest IH]; intros nxt; [discriminate|].
  cbn [fold_right argparse.lookup_index].
  destruct (start <=? i)%nat eqn:Hle.
  - apply Nat.leb_le in Hle.
    destruct (fold_right _ None rest) as [j|] eqn:Ej.
    + intros [= <-]. destruct (IH j eq_refl) as (H1 & [t' H2] & H3).
      destruct (Nat.min_spec i j) as [[? ->]|[? ->]].
      * rewrite Nat.eqb_refl. split; [lia|]. split; [eauto|lia].
      * split; [lia|]. split; [|lia].
        destruct (j =? i)%nat; eauto.
    + intros [= <-]. rewrite Nat.eqb_refl. split; [lia|]. split; [eauto|lia].
  - intros H. destruct (IH nxt H) as (H1 & [t' H2] & H3).
    split; [lia|]. split; [|lia]. destruct (nxt =? i)%nat; eauto.
Qed.

Lemma next_index_some start :
  (Z.of_nat start <= max_index)%Z -> exists nxt, next_index start = Some nxt.
Proof.
  unfold argparse.next_option_string_index, argparse.max_option_string_index.
  induction indices as [|[i t] rest IH]; cbn [fold_right]; [lia|].
  intros H. destruct (start <=? i)%nat eqn:Hle; [eauto|].
  apply Nat.leb_gt in Hle. apply IH. lia.
Qed.

Lemma get_str_from s n k : String.get k (str_from s n) = String.get (n + k) s.
Proof.
  revert s. induction n as [|n IH]; intros s; [destruct s; reflexivity|].
  destruct s as [|c s]; cbn [str_from plus String.get]; [destruct k; reflexivity|].
  apply IH.
Qed.

Hypothesis indices_ok : forall j t,
  argparse.lookup_index indices j = Some t ->
  tuple_ok (Some t) /\ String.get j pattern = Some "O"%char.

Lemma span_to_next start nxt :
  next_index start = Some nxt ->
  start + span "A-" (str_from pattern start) <= nxt.
Proof.
  intros H. destruct (next_index_spec _ _ H) as (H1 & [t H2] & _).
  destruct (indices_ok _ _ H2) as [_ H3].
  assert (span "A-" (str_from pattern start) <= nxt - start); [|lia].
  apply (span_le "A-" _ _ "O"%char); [|reflexivity].
  rewrite get_str_from. replace (start + (nxt - start)) with nxt by lia. exact H3.
Qed.

Lemma triple_consume_loop fuel : forall fr start,
  (max_index < Z.of_nat start + Z.of_nat fuel)%Z ->
  positionals_ok fr ->
  triple prog (argparse.consume_loop P arg_strings indices pattern fuel fr start)
    (fun r => positionals_ok (fst r)
              /\ (argparse.extras fr <> [] \/ (Z.of_nat start <= max_index)%Z ->
                  argparse.extras (fst r) <> [])).
Proof.
  induction fuel as [|fuel IH]; intros fr start Hfuel Hpos;
    cbn [argparse.consume_loop];
    destruct (Z.leb (Z.of_nat start) max_index) eqn:Hle;
    try (apply triple_ret; cbn; split; [exact Hpos|];
         apply Z.leb_gt in Hle; intros [?|?]; [assumption|lia]).
  { apply Z.leb_le in Hle. lia. }
  apply Z.leb_le in Hle.
  destruct (next_index_some _ Hle) as [nxt Hnxt]. rewrite Hnxt.
  destruct (next_index_spec _ _ Hnxt) as (Hge & [tn Htn] & Hmax).
  assert (Hopt : forall fr1 s1, positionals_ok fr1 -> start <= s1 ->
            triple prog (optional_step prog arg_strings indices pattern fuel nxt fr1 s1)
              (fun r => positionals_ok (fst r) /\ argparse.extras (fst r) <> [])).
  { intros fr1 s1 Hp1 Hs1. unfold optional_step.
    destruct (argparse.lookup_index indices s1) as [t1|] eqn:L1.
    - eapply triple_bind;
        [eapply triple_consume_optional; [exact L1|apply (indices_ok _ _ L1)]|].
      intros [fr2 s2] (E1 & E2 & E3). cbn [fst snd] in *. subst s2.
      eapply triple_weaken; [apply IH|].
      + lia.
      + unfold positionals_ok in *. rewrite E3. exact Hp1.
      + intros r [Hr1 Hr2]. split; [exact Hr1|]. apply Hr2. left. exact E2.
    - eapply triple_bind;
        [eapply triple_consume_optional; [exact Htn|apply (indices_ok _ _ Htn)]|].
      intros [fr2 s2] (E1 & E2 & E3). cbn [fst snd] in *. subst s2.
      eapply triple_weaken; [apply IH|].
      + lia.
      + unfold positionals_ok in *. rewrite E3. exact Hp1.
      + intros r [Hr1 Hr2]. split; [exact Hr1|]. apply Hr2. left. exact E2. }
  destruct (negb (start =? nxt)%nat) eqn:Hneq.
  - eapply triple_bind; [apply triple_consume_positionals; exact Hpos|].
    intros [fr1 pe] (E1 & E2 & E3). cbn [fst snd] in *.
    assert (Hp1 : positionals_ok fr1) by (right; exact E2).
    destruct (start <? pe)%nat eqn:Hlt.
    + apply Nat.ltb_lt in Hlt.
      eapply triple_weaken; [apply IH; [lia|exact Hp1]|].
      intros r [Hr1 Hr2]. split; [exact Hr1|]. intros _. apply Hr2.
      right. pose proof (span_to_next _ _ Hnxt). lia.
    + apply Nat.ltb_ge in Hlt.
      eapply triple_weaken; [apply (Hopt fr1 pe); [exact Hp1|lia]|].
      intros r [Hr1 Hr2]. split; [exact Hr1|]. intros _. exact Hr2.
  - eapply triple_weaken; [apply (Hopt fr start); [exact Hpos|lia]|].
    intros r [Hr1 Hr2]. split; [exact Hr1|]. intros _. exact Hr2.
Qed.

Lemma triple_check_required actions : forall fr,
  Forall known actions ->
  triple prog (argparse.check_required P actions fr)
    (fun r => argparse.extras (fst r) = argparse.extras fr).
Proof.
  induction actions as [|a actions IH]; intros fr H; cbn [argparse.check_required].
  - apply triple_ret. reflexivity.
  - inversion H as [|? ? Ha Hrest]; subst.
    destruct (negb _); [|apply IH; exact Hrest].
    destruct (argparse.required a).
    + eapply triple_bind; [apply IH; exact Hrest|].
      intros [fr1 names] E. apply triple_ret. exact E.
    + destruct (argparse.default a); try (apply IH; exact Hrest).
      destruct (argparse.getattr _ _) as [[]|]; try (apply IH; exact Hrest).
      destruct (String.eqb _ _); [|apply IH; exact Hrest].
      eapply triple_bind; [apply triple_get_value; exact Ha|].
      intros v _. eapply triple_weaken; [apply IH; exact Hrest|].
      intros r E. exact E.
Qed.

End Outcomes.

(** ** The first pass *)

Lemma classify_pure_spec prog arg_strings : forall i ind pat,
  classify_pure prog i arg_strings = (ind, pat) ->
  (forall j t, argparse.lookup_index ind j = Some t ->
     tuple_ok (Some t) /\ String.get (j - i) pat = Some "O"%char
     /\ i <= j < i + length arg_strings)
  /\ (argparse.max_option_string_index ind < Z.of_nat (i + length arg_strings))%Z
  /\ String.length pat = length arg_strings.
Proof.
  induction arg_strings as [|a rest IH]; intros i ind pat; cbn [classify_pure].
  { intros [= <- <-]. cbn. repeat split; try discriminate; lia. }
  destruct (String.eqb a "--").
  { intros [= <- <-]. cbn [argparse.lookup_index argparse.max_option_string_index fold_right].
    split; [discriminate|]. split; [lia|].
    cbn [String.append String.length length]. f_equal.
    clear. induction rest as [|x rest IH]; [reflexivity|].
    cbn [map String.concat length].
    destruct (map _ rest) eqn:E.
    - destruct rest; [reflexivity|discriminate].
    - cbn [String.append String.length]. f_equal. rewrite <- IH.
      cbn [String.append String.length]. reflexivity. }
  destruct (classify_pure prog (S i) rest) as [ind' pat'] eqn:E.
  destruct (IH (S i) ind' pat' E) as (H1 & H2 & H3).
  destruct (optional_of prog a) as [t|] eqn:Ha; intros [= <- <-].
  - split; [|split].
    + intros j t'. cbn [argparse.lookup_index].
      destruct (j =? i)%nat eqn:Ej.
      * apply Nat.eqb_eq in Ej. subst j. intros [= <-].
        split; [rewrite <- Ha; apply optional_of_ok|].
        rewrite Nat.sub_diag. cbn. split; [reflexivity|lia].
      * apply Nat.eqb_neq in Ej. intros L. destruct (H1 j t' L) as (K1 & K2 & K3).
        split; [exact K1|]. cbn [length]. split; [|lia].
        replace (j - i) with (S (j - S i)) by lia. exact K2.
    + unfold argparse.max_option_string_index in *. cbn [fold_right length]. lia.
    + change ("O" +:+ pat') with (String "O" pat'). cbn [String.length length]. congruence.
  - split; [|split].
    + intros j t' L. destruct (H1 j t' L) as (K1 & K2 & K3).
      split; [exact K1|]. cbn [length]. split; [|lia].
      replace (j - i) with (S (j - S i)) by lia. exact K2.
    + cbn [length]. lia.
    + change ("A" +:+ pat') with (String "A" pat'). cbn [String.length length]. congruence.
Qed.

Lemma classify_pure_no_option prog arg_strings : forall i pat,
  classify_pure prog i arg_strings = ([], pat) ->
  (forall k c, String.get k pat = Some c -> char_in c "A-" = true)
  /\ Forall (fun a => optional_of prog a = None) (before_separator arg_strings).
Proof.
  induction arg_strings as [|a rest IH]; intros i pat;
    cbn [classify_pure before_separator].
  { intros [= <-]. split; [intros [|k] c; discriminate|constructor]. }
  destruct (String.eqb a "--").
  { intros [= <-]. split; [|constructor]. intros [|k] c.
    - intros [= <-]. reflexivity.
    - change (String.get (S k) ("-" +:+ ?s)) with (String.get k s).
      clear. revert k. induction rest as [|x rest IH]; intros k; [destruct k; discriminate|].
      cbn [map String.concat].
      destruct (map _ rest) eqn:E.
      + destruct k as [|[|k]]; cbn; intros [= <-]; reflexivity.
      + change ("A" +:+ "" +:+ ?s) with (String "A" s).
        destruct k as [|k]; cbn [String.get]; [intros [= <-]; reflexivity|].
        apply IH. }
  destruct (classify_pure prog (S i) rest) as [ind' pat'] eqn:E.
  destruct (optional_of prog a) as [t|] eqn:Ha; intros [= -> <-].
  destruct (IH (S i) pat' E) as [H1 H2]. split.
  - intros [|k] c.
    + intros [= <-]. reflexivity.
    + change (String.get (S k) ("A" +:+ pat')) with (String.get k pat'). apply H1.
  - constructor; assumption.
Qed.

Lemma classify_pure_dash_free prog arg_strings : forall i,
  Forall dash_free arg_strings ->
  fst (classify_pure prog i arg_strings) = []
  /\ list_remove "--" arg_strings = None.
Proof.
  induction arg_strings as [|a rest IH]; intros i H; [split; reflexivity|].
  inversion H as [|? ? Ha Hrest]; subst.
  cbn [classify_pure list_remove].
  assert (String.eqb a "--" = false) as ->.
  { destruct (String.eqb a "--") eqn:E; [|reflexivity].
    apply String.eqb_eq in E. subst a. discriminate. }
  destruct (IH (S i) Hrest) as [H1 H2].
  destruct (classify_pure prog (S i) rest) as [ind pat].
  rewrite (optional_of_dash_free prog a Ha), H2. cbn in *. auto.
Qed.

(** ** The whole parse *)

Section Parse.
Variable prog : string.
Local Abbreviation P := (parser_of prog).

Lemma max_index_nonneg ind :
  ind <> [] -> (0 <= argparse.max_option_string_index ind)%Z.
Proof.
  destruct ind as [|[i t] ind]; [congruence|]. intros _.
  unfold argparse.max_option_string_index. cbn [fold_right]. lia.
Qed.

Lemma triple_parse_known_args arg_strings ns0 :
  triple prog (argparse._parse_known_args P arg_strings ns0)
    (fun r => fst (classify_pure prog 0 arg_strings) <> [] -> snd r <> []).
Proof.
  unfold argparse._parse_known_args.
  apply (triple_bind prog _ _ (fun r => r = classify_pure prog 0 arg_strings)).
  { intros st. rewrite classify_eq. split; [apply quiet_refl|reflexivity]. }
  intros r ->. destruct (classify_pure prog 0 arg_strings) as [ind pat] eqn:E.
  destruct (classify_pure_spec _ _ _ _ _ E) as (H1 & H2 & H3).
  cbn [fst].
  eapply triple_bind.
  { apply (triple_consume_loop prog arg_strings ind pat).
    - intros j t L. destruct (H1 j t L) as (K1 & K2 & _).
      rewrite Nat.sub_0_r in K2. auto.
    - cbn [plus] in H2. lia.
    - left. reflexivity. }
  intros [fr1 s1] [Hp1 Hx1]. cbn [fst argparse.extras] in *.
  eapply triple_bind; [apply triple_consume_positionals; exact Hp1|].
  intros [fr2 s2] (E1 & E2 & E3). cbn [fst snd] in *.
  eapply triple_bind.
  { apply triple_check_required.
    constructor; [left; reflexivity|]. constructor; [right; reflexivity|constructor]. }
  intros [fr3 names] Hx3. cbn [fst argparse.extras] in Hx3.
  destruct names; [|apply triple_error].
  apply triple_ret. cbn [snd fst]. intros Hind. rewrite Hx3, E1.
  assert (argparse.extras fr1 <> []) as Hne.
  { apply Hx1. right. apply max_index_nonneg. exact Hind. }
  destruct (argparse.extras fr1); [congruence|discriminate].
Qed.

Lemma parse_args_result st : parse_result prog st (argparse.parse_args P st).
Proof.
  unfold argparse.parse_args, argparse.parse_known_args, bind at 1 2,
    sys_argv_from_1, try_except.
  cbn [argparse.exit_on_error parser_of].
  match goal with
  | |- context [argparse._parse_known_args P (args st) ?ns0 st] =>
      pose proof (triple_parse_known_args (args st) ns0 st) as H;
      destruct (argparse._parse_known_args P (args st) ns0 st) as [st1 [[ns extras]|e|]]
  end; [| |contradiction].
  - destruct H as [Hq Hx]. cbn [snd] in Hx.
    destruct extras as [|x extras].
    + cbn. split; [exact Hq|].
      destruct (fst (classify_pure prog 0 (args st))); [reflexivity|].
      exfalso. apply Hx; [discriminate|reflexivity].
    + destruct (error_exits prog (A:=argparse.Namespace)
                  ("unrecognized arguments: " +:+ join " " (x :: extras)) st1)
        as (st2 & -> & He).
      right. split; [reflexivity|]. eapply quiet_erred; eauto.
  - destruct e; try contradiction.
    + destruct (error_exits prog (A:=argparse.Namespace * list string)
                  (argparse.str_ArgumentError argument_name message) st1)
        as (st2 & -> & He).
      right. split; [reflexivity|]. eapply quiet_erred; eauto.
    + cbn. exact H.
Qed.

(** *** A command line without option strings *)

Lemma take_action_files fr l st :
  argparse.take_action P fr files_action l None st =
  match open_each prog (strip l) st with
  | (st1, Normal vs) =>
      (st1, Normal {| argparse.namespace :=
                        argparse.setattr (argparse.namespace fr) "files" (PyList vs);
                      argparse.extras := argparse.extras fr;
                      argparse.positionals := argparse.positionals fr;
                      argparse.seen_actions :=
                        files_action :: argparse.seen_actions fr |})
  | (st1, Raise e) => (st1, Raise e)
  | (st1, OutOfFuel) => (st1, OutOfFuel)
  end.
Proof.
  unfold argparse.take_action, argparse._get_values, open_each, strip, bind.
  cbn [argparse.nargs argparse.option_strings argparse.default files_action].
  destruct (match list_remove "--" l with Some l0 => l0 | None => l end)
    as [|x [|y l']]; [reflexivity| |].
  - destruct (map_py _ [x] st) as [st1 [vs| |]]; reflexivity.
  - destruct (map_py _ (x :: y :: l') st) as [st1 [vs| |]]; reflexivity.
Qed.

Lemma parse_args_no_options st pat :
  classify_pure prog 0 (args st) = ([], pat) ->
  argparse.parse_args P st =
  match open_each prog (strip (args st)) st with
  | (st1, Normal vs) => (st1, Normal [("files", PyList vs)])
  | (st1, Raise (ArgumentError n m)) =>
      (diagnosed prog st1 (argparse.str_ArgumentError n m), Raise (SystemExit 2))
  | (st1, Raise e) => (st1, Raise e)
  | (st1, OutOfFuel) => (st1, OutOfFuel)
  end.
Proof.
  intros E.
  destruct (classify_pure_spec _ _ _ _ _ E) as (_ & _ & Hlen).
  destruct (classify_pure_no_option _ _ _ _ E) as [Hchars _].
  unfold argparse.parse_args, argparse.parse_known_args, bind at 1 2,
    sys_argv_from_1, try_except.
  cbn [argparse.exit_on_error parser_of].
  unfold argparse._parse_known_args, bind at 1. rewrite classify_eq, E.
  unfold bind at 1.
  replace (argparse.consume_loop P (args st) [] pat (S (length (args st))) _ 0 st)
    with (st, Normal ({| argparse.namespace := [("files", PyNone)];
                         argparse.extras := [];
                         argparse.positionals := [files_action];
                         argparse.seen_actions := [] |}, 0)) by reflexivity.
  unfold bind at 1.
  unfold argparse.consume_positionals, argparse._match_arguments_partial.
  cbn [argparse.positionals length argparse._match_arguments_partial_from firstn map].
  rewrite match_positional_files.
  replace (str_from pat 0) with pat by (destruct pat; reflexivity).
  rewrite (span_all _ _ Hchars), Hlen.
  cbn [combine argparse.take_positionals]. unfold bind at 1 2.
  unfold slice. rewrite Nat.add_0_l, Nat.sub_0_r, skipn_O.
  rewrite firstn_all. rewrite take_action_files.
  destruct (open_each prog (strip (args st)) st) as [st1 [vs|e|]]; [|destruct e|];
    try reflexivity.
  unfold ret at 1 2. cbv iota beta.
  cbn [argparse.extras argparse.namespace argparse.seen_actions argparse.positionals app].
  - unfold slice_from. rewrite skipn_all. reflexivity.
  - rewrite error_eq. reflexivity.
Qed.

Lemma dash_free_not_dash p : dash_free p -> String.eqb p "-" = false.
Proof.
  intros H. destruct (String.eqb p "-") eqn:E; [|reflexivity].
  apply String.eqb_eq in E. subst p. discriminate.
Qed.

Lemma open_each_all l : forall st,
  Forall dash_free l ->
  Forall (can_open_rplus (fs st)) l ->
  open_each prog l st
  = (opened st (handles (length (open_files st)) l),
     Normal (map PyFile (handles (length (open_files st)) l))).
Proof.
  induction l as [|p l IH]; intros st Hd Ho; unfold open_each in *; cbn [map_py handles map].
  - unfold ret, opened. rewrite app_nil_r. destruct st; reflexivity.
  - inversion Hd as [|? ? Hd1 Hd2]; inversion Ho as [|? ? Ho1 Ho2]; subst.
    unfold bind at 1. rewrite get_value_files, (dash_free_not_dash _ Hd1).
    apply can_open_rplus_errno in Ho1. rewrite Ho1.
    unfold bind at 1. rewrite (IH (with_open_file st (next_handle st p)) Hd2 Ho2).
    unfold ret, opened, next_handle. cbn [open_files with_open_file fs argv0 args
                                          stdout stderr].
    rewrite length_app, <- app_assoc. cbn [length app].
    replace (length (open_files st) + 1) with (S (length (open_files st))) by lia.
    reflexivity.
Qed.

Lemma open_each_fails l : forall st p,
  In p l -> String.eqb p "-" = false -> rplus_errno (fs st) p <> None ->
  exists st1 q e, open_each prog l st = (st1, Raise (cant_open q e)) /\ quiet st st1.
Proof.
  induction l as [|x l IH]; intros st p Hin Hp He; [destruct Hin|].
  unfold open_each in *. cbn [map_py]. unfold bind at 1. rewrite get_value_files.
  destruct (String.eqb x "-") eqn:Ex.
  - destruct Hin as [->|Hin]; [congruence|].
    destruct (IH st p Hin Hp He) as (st1 & q & e & E & Hq).
    unfold bind at 1. rewrite E. eauto.
  - destruct (rplus_errno (fs st) x) as [e|] eqn:Rx.
    + exists st, x, e. split; [reflexivity|apply quiet_refl].
    + destruct Hin as [->|Hin]; [congruence|].
      destruct (IH (with_open_file st (next_handle st x)) p Hin Hp He)
        as (st1 & q & e & E & Hq).
      unfold bind at 1. rewrite E. exists st1, q, e. split; [reflexivity|].
      eapply quiet_trans; [apply quiet_with_open_file|exact Hq].
Qed.

End Parse.

(** ** A help option as the first argument *)





(** ** The program *)

Lemma ArgumentParser_init_eq st :
  argparse.ArgumentParser_init st
  = (st, Normal {| argparse.prog := os_path_basename (argv0 st);
                   argparse.prefix_chars := "-";
                   argparse.add_help := true;
                   argparse.allow_abbrev := true;
                   argparse.exit_on_error := true;
                   argparse._actions := [help_action];
                   argparse._option_string_actions :=
                     [("-h", help_action); ("--help", help_action)];
                   argparse._has_negative_number_optionals := [] |}).
Proof. reflexivity. Qed.

Lemma qodex_parse_args_eq st :
  qodex.parse_args st = argparse.parse_args (parser_of (prog_of st)) st.
Proof.
  unfold qodex.parse_args, bind at 1. rewrite ArgumentParser_init_eq. cbv zeta.
  replace (argparse.add_argument _ _ _) with (parser_of (prog_of st)) by reflexivity.
  unfold bind, typing.cast, ret.
  destruct (argparse.parse_args _ st) as [st1 [ns|e|]]; reflexivity.
Qed.

Lemma qodex_parse_args_result st :
  parse_result (prog_of st) st (qodex.parse_args st).
Proof. rewrite qodex_parse_args_eq. apply parse_args_result. Qed.

Lemma main_after_parse st :
  qodex.main st =
  match qodex.parse_args st with
  | (st1, Normal _) =>
      ({| fs := fs st1; argv0 := argv0 st1; args := args st1;
          stdout := stdout st1 +:+ ("Hello Qodex!" +:+ nl);
          stderr := stderr st1; open_files := open_files st1 |}, Normal 0%Z)
  | (st1, Raise e) => (st1, Raise e)
  | (st1, OutOfFuel) => (st1, OutOfFuel)
  end.
Proof.
  unfold qodex.main, bind at 1.
  destruct (qodex.parse_args st) as [st1 [ns|e|]]; reflexivity.
Qed.

Lemma main_has_result st : main_result st (qodex.main st).
Proof.
  rewrite main_after_parse. pose proof (qodex_parse_args_result st) as H.
  destruct (qodex.parse_args st) as [st1 [ns|e|]]; cbn in H |- *; [|exact H..].
  destruct H as [(H1 & H2 & H3 & H4 & H5) _]. repeat split; congruence.
Qed.

Lemma append_length a b :
  String.length (a +:+ b) = String.length a + String.length b.
Proof.
  induction a as [|c a IH]; [reflexivity|].
  change (String c a +:+ b) with (String c (a +:+ b)). cbn [String.length].
  rewrite IH. reflexivity.
Qed.

Lemma append_neq s t : t <> "" -> s +:+ t <> s.
Proof.
  intros Ht H. assert (L : String.length (s +:+ t) = String.length s) by congruence.
  rewrite append_length in L. destruct t; [congruence|]. cbn [String.length] in L. lia.
Qed.

(** ** The embedding on concrete command lines

    The outputs below are the ones CPython 3.11 produces for the same
    command lines. *)

Example run_without_arguments :
  qodex.run fs_ab "qodex" []
  = {| qodex.exit_status := Some 0%Z;
       qodex.written_stdout := "Hello Qodex!" +:+ nl;
       qodex.written_stderr := "";
       qodex.fs_after := fs_ab |}.
Proof. vm_compute. reflexivity. Qed.

Example run_with_missing_file :
  qodex.run fs_ab "qodex" ["a.txt"; "missing.txt"]
  = {| qodex.exit_status := Some 2%Z;
       qodex.written_stdout := "";
       qodex.written_stderr :=
         "usage: qodex [-h] [files ...]" +:+ nl +:+
         "qodex: error: argument files: can't open 'missing.txt': "
         +:+ "[Errno 2] No such file or directory: 'missing.txt'" +:+ nl;
       qodex.fs_after := fs_ab |}.
Proof. vm_compute. reflexivity. Qed.

Example run_with_help :
  qodex.written_stdout (qodex.run fs_ab "qodex" ["--he"])
  = "usage: qodex [-h] [files ...]" +:+ nl +:+ nl +:+
    "positional arguments:" +:+ nl +:+
    "  files" +:+ nl +:+ nl +:+
    "options:" +:+ nl +:+
    "  -h, --help  show this help message and exit" +:+ nl.
Proof. vm_compute. reflexivity. Qed.

Example run_with_interleaved_option :
  qodex.written_stderr (qodex.run fs_ab "qodex" ["a.txt"; "-x"; "b.txt"])
  = "usage: qodex [-h] [files ...]" +:+ nl +:+
    "qodex: error: unrecognized arguments: -x b.txt" +:+ nl.
Proof. vm_compute. reflexivity. Qed.

Example run_with_attached_argument :
  qodex.written_stderr (qodex.run fs_ab "qodex" ["-hfoo"])
  = "usage: qodex [-h] [files ...]" +:+ nl +:+
    "qodex: error: argument -h/--help: ignored explicit argument 'foo'" +:+ nl.
Proof. vm_compute. reflexivity. Qed.

Example parse_after_separator :
  snd (qodex.parse_args (fresh_process (<["-x" := rw_file]> fs_ab) "qodex"
                           ["a.txt"; "--"; "-x"]))
  = Normal [("files", PyList [PyFile (TextIOWrapper "a.txt" "r+" 3);
                              PyFile (TextIOWrapper "-x" "r+" 4)])].
Proof. vm_compute. reflexivity. Qed.

(* --------------------------------------------------------------------- *)
(** ** C1 *)

(** After a successful parse, [main] adds the greeting to the state the
    parser left, which differs from the initial one only in the open files. *)
Lemma main_after_successful_parse st st1 ns :
  qodex.parse_args st = (st1, Normal ns) ->
  qodex.main st
  = ({| fs := fs st1; argv0 := argv0 st1; args := args st1;
        stdout := stdout st1 +:+ ("Hello Qodex!" +:+ nl);
        stderr := stderr st1; open_files := open_files st1 |}, Normal 0%Z)
  /\ stdout st1 = stdout st /\ stderr st1 = stderr st.
Proof.
  intros H. pose proof (qodex_parse_args_result st) as R.
  rewrite main_after_parse, H in *. destruct R as [(_ & _ & _ & R1 & R2) _].
  auto.
Qed.

(** C1. Whenever argument parsing succeeds, [main] returns the success
    status 0, and what it adds to standard output is exactly the line
    [Hello Qodex!] followed by a newline (the parser itself has written
    nothing, neither there nor on the error stream). *)
Theorem main_greets_on_successful_parse (st st1 : Process) (ns : qodex.QodexNamespace) :
  qodex.parse_args st = (st1, Normal ns) ->
  exists st',
    qodex.main st = (st', Normal 0%Z)
    /\ stdout st' = stdout st +:+ ("Hello Qodex!" +:+ nl)
    /\ stderr st' = stderr st.
Proof.
  intros H. destruct (main_after_successful_parse st st1 ns H) as (E & O & R).
  eexists. split; [exact E|]. cbn [stdout stderr].
  split; congruence.
Qed.

Lemma main_greets_on_successful_parse_witness :
  exists st',
    qodex.main (fresh_process fs_ab "/usr/bin/qodex" ["a.txt"; "b.txt"])
    = (st', Normal 0%Z)
    /\ stdout st' = "" +:+ ("Hello Qodex!" +:+ nl)
    /\ stderr st' = "".
Proof.
  eapply (main_greets_on_successful_parse
            (fresh_process fs_ab "/usr/bin/qodex" ["a.txt"; "b.txt"])).
  vm_compute. reflexivity.
Defined.

(* --------------------------------------------------------------------- *)
(** ** C2 *)

Lemma files_of_handles hs :
  qodex.files [("files", PyList (map PyFile hs))] = Some hs.
Proof.
  unfold qodex.files.
  replace (argparse.getattr [("files", PyList (map PyFile hs))] "files")
    with (Some (PyList (map PyFile hs))) by reflexivity.
  induction hs as [|h hs IH]; [reflexivity|].
  cbn [map fold_right]. rewrite IH. reflexivity.
Qed.






(* --------------------------------------------------------------------- *)
(** ** C3 *)

Lemma in_strip p l : In p l -> p <> "--" -> In p (strip l).
Proof.
  unfold strip. intros Hin Hp.
  assert (H : forall l', list_remove "--" l = Some l' -> In p l').
  { induction l as [|x l IH]; intros l'; cbn [list_remove]; [discriminate|].
    destruct (String.eqb x "--") eqn:E.
    - apply String.eqb_eq in E. subst x. intros [= <-].
      destruct Hin as [Heq|Hin]; [congruence|exact Hin].
    - destruct (list_remove "--" l) as [l0|]; [|discriminate].
      intros [= <-]. destruct Hin as [->|Hin]; [left; reflexivity|].
      right. apply IH; [exact Hin|reflexivity]. }
  destruct (list_remove "--" l) as [l'|]; [apply H; reflexivity|exact Hin].
Qed.

(** Without option strings, a path that cannot be opened ends the parse
    with the diagnostic and status 2. *)
Lemma parse_fails_without_options st p pat :
  classify_pure (prog_of st) 0 (args st) = ([], pat) ->
  In p (args st) -> dash_free p -> ~ can_open_rplus (fs st) p ->
  exists st',
    qodex.parse_args st = (st', Raise (SystemExit 2))
    /\ erred (prog_of st) st st'.
Proof.
  intros E Hin Hd Hno. rewrite qodex_parse_args_eq, (parse_args_no_options _ _ _ E).
  destruct (open_each_fails (prog_of st) (strip (args st)) st p) as (st1 & q & e & -> & Hq).
  - apply in_strip; [exact Hin|]. intros ->. discriminate.
  - apply dash_free_not_dash. exact Hd.
  - intros H. apply Hno. apply can_open_rplus_errno. exact H.
  - unfold cant_open. eexists. split; [reflexivity|].
    eapply quiet_erred; [exact Hq|apply erred_diagnosed].
Qed.

(** C3, as stated, fails: [missing.txt] cannot be opened, but the help
    option before it ends the process first, with status 0 and nothing on
    the error stream. *)
Lemma help_flag_precedes_unopenable_path :
  let st := fresh_process ∅ "qodex" ["-h"; "missing.txt"] in
  In "missing.txt" (args st)
  /\ ~ can_open_rplus (fs st) "missing.txt"
  /\ snd (qodex.main st) = Raise (SystemExit 0)
  /\ stderr (fst (qodex.main st)) = "".
Proof.
  cbn zeta. split; [right; left; reflexivity|]. split; [|split].
  - intros [_ (ino & H & _)]. vm_compute in H. discriminate.
  - vm_compute. reflexivity.
  - vm_compute. reflexivity.
Qed.

(** C3, amended. For any invocation naming a path that does not begin
    with ['-'] and cannot be opened for reading and updating, control never
    returns to the caller and the greeting is not printed: the process ends
    with status 2, a diagnostic (usage and error line) on the error stream
    and nothing on standard output, unless a help option is met first, in
    which case it ends with status 0 after printing the help message.  When
    no argument begins with ['-'], it is always status 2. *)
Theorem unopenable_path_ends_the_process (st : Process) (p : string) :
  In p (args st) ->
  dash_free p ->
  ~ can_open_rplus (fs st) p ->
  exists st',
    ((qodex.main st = (st', Raise (SystemExit 2))
      /\ stdout st' = stdout st
      /\ exists message,
           stderr st' = (stderr st +:+ argparse.format_usage (parser_of (prog_of st)))
                        +:+ (prog_of st +:+ ": error: " +:+ message +:+ nl))
     \/
     (qodex.main st = (st', Raise (SystemExit 0))
      /\ stdout st' = stdout st +:+ argparse.format_help (parser_of (prog_of st))
      /\ stderr st' = stderr st))
    /\ (Forall dash_free (args st) -> qodex.main st = (st', Raise (SystemExit 2))).
Proof.
  intros Hin Hd Hno.
  destruct (classify_pure (prog_of st) 0 (args st)) as [ind pat] eqn:E.
  destruct ind as [|i0 ind].
  - destruct (parse_fails_without_options st p pat E Hin Hd Hno) as (st' & Hp & He).
    exists st'. rewrite main_after_parse, Hp.
    split; [|reflexivity]. left. destruct He as (_ & _ & _ & H1 & H2). auto.
  - pose proof (main_has_result st) as R.
    pose proof (qodex_parse_args_result st) as Rp.
    rewrite main_after_parse in *.
    destruct (qodex.parse_args st) as [st1 [ns|e|]]; cbn in Rp; try contradiction.
    { destruct Rp as [_ Rp]. rewrite E in Rp. discriminate. }
    destruct e; try contradiction. exists st1. split.
    + destruct Rp as [[-> (_ & _ & _ & H1 & H2)]|[-> (_ & _ & _ & H1 & H2)]];
        [right|left]; auto.
    + intros Hall. destruct (classify_pure_dash_free (prog_of st) _ 0 Hall) as [E1 _].
      rewrite E in E1. discriminate.
Qed.

Lemma unopenable_path_ends_the_process_witness :
  exists st',
    ((qodex.main (fresh_process fs_ab "qodex" ["a.txt"; "missing.txt"])
      = (st', Raise (SystemExit 2))
      /\ stdout st' = ""
      /\ exists message,
           stderr st' = ("" +:+ argparse.format_usage (parser_of "qodex"))
                        +:+ ("qodex" +:+ ": error: " +:+ message +:+ nl))
     \/
     (qodex.main (fresh_process fs_ab "qodex" ["a.txt"; "missing.txt"])
      = (st', Raise (SystemExit 0))
      /\ stdout st' = "" +:+ argparse.format_help (parser_of "qodex")
      /\ stderr st' = ""))
    /\ (Forall dash_free ["a.txt"; "missing.txt"] ->
        qodex.main (fresh_process fs_ab "qodex" ["a.txt"; "missing.txt"])
        = (st', Raise (SystemExit 2))).
Proof.
  apply (unopenable_path_ends_the_process
           (fresh_process fs_ab "qodex" ["a.txt"; "missing.txt"]) "missing.txt").
  - right. left. reflexivity.
  - reflexivity.
  - intros [_ (ino & H & _)]. vm_compute in H. discriminate.
Defined.

(* --------------------------------------------------------------------- *)
(** ** C4 *)

(** C4, as stated, fails: the parser that [parse_args] builds has the
    option strings [-h] and [--help], and an invocation with [-h] is
    accepted (status 0), not rejected. *)
Lemma help_option_is_defined :
  let st := fresh_process ∅ "qodex" ["-h"] in
  (exists parser,
     built_parser st = (st, Normal parser)
     /\ map fst (argparse._option_string_actions parser) = ["-h"; "--help"])
  /\ snd (qodex.parse_args st) = Raise (SystemExit 0).
Proof.
  cbn zeta. split.
  - eexists. split; reflexivity.
  - vm_compute. reflexivity.
Qed.

(** C4, amended. The only option strings of the parser are [-h] and
    [--help], both of the help action that [ArgumentParser] adds by
    default; there is no other flag, option or subcommand, and the only
    positional is the variadic [files].  Whenever the parse succeeds, every
    argument before a ["--"] separator was taken as a positional. *)
Theorem only_help_options_and_positional_files (st : Process) :
  exists parser,
    built_parser st = (st, Normal parser)
    /\ map fst (argparse._option_string_actions parser) = ["-h"; "--help"]
    /\ (forall o a, In (o, a) (argparse._option_string_actions parser) ->
                    argparse.action_class a = argparse._HelpAction)
    /\ map argparse.dest (argparse._get_positional_actions parser) = ["files"]
    /\ map argparse.nargs (argparse._get_positional_actions parser)
       = [argparse.ZERO_OR_MORE]
    /\ (forall st' ns,
          qodex.parse_args st = (st', Normal ns) ->
          Forall (fun a => forall st0,
                            argparse._parse_optional parser a st0 = (st0, Normal None))
                 (before_separator (args st))).
Proof.
  exists (parser_of (prog_of st)). split; [apply built_parser_eq|].
  split; [reflexivity|]. split.
  { intros o a [[= <- <-]|[[= <- <-]|[]]]; reflexivity. }
  split; [reflexivity|]. split; [reflexivity|].
  intros st' ns H. pose proof (qodex_parse_args_result st) as R.
  rewrite H in R. destruct R as [_ R].
  destruct (classify_pure (prog_of st) 0 (args st)) as [ind pat] eqn:E.
  cbn in R. subst ind.
  destruct (classify_pure_no_option _ _ _ _ E) as [_ F].
  eapply Forall_impl; [exact F|].
  intros a Ha st0. rewrite parse_optional_eq, Ha. reflexivity.
Qed.

Lemma only_help_options_and_positional_files_witness :
  Forall (fun a => forall st0,
            argparse._parse_optional (parser_of "qodex") a st0 = (st0, Normal None))
         (before_separator ["a.txt"; "--"; "-h"]).
Proof.
  destruct (only_help_options_and_positional_files
              (fresh_process (<["-h" := rw_file]> fs_ab) "qodex" ["a.txt"; "--"; "-h"]))
    as (parser & Hb & _ & _ & _ & _ & H).
  vm_compute in Hb. injection Hb as <-.
  eapply H. vm_compute. reflexivity.
Defined.

(* --------------------------------------------------------------------- *)
(** ** C5 *)

(** C5. What [main] does after the parse does not depend on the parsed
    value: [main] is the parse followed by one fixed computation that does
    not take the namespace; so for any two successful parses [main] returns
    the same status and appends the same text to standard output (the same
    output when both start from the same output), and leaves the error
    stream alone. *)
Theorem main_ignores_parsed_files :
  (exists k : Py Z, forall st, qodex.main st = bind qodex.parse_args (fun _ => k) st)
  /\ forall st1 st2 st1' st2' ns1 ns2,
       qodex.parse_args st1 = (st1', Normal ns1) ->
       qodex.parse_args st2 = (st2', Normal ns2) ->
       snd (qodex.main st1) = snd (qodex.main st2)
       /\ snd (qodex.main st1) = Normal 0%Z
       /\ stdout (fst (qodex.main st1)) = stdout st1 +:+ ("Hello Qodex!" +:+ nl)
       /\ stdout (fst (qodex.main st2)) = stdout st2 +:+ ("Hello Qodex!" +:+ nl)
       /\ (stdout st1 = stdout st2 ->
           stdout (fst (qodex.main st1)) = stdout (fst (qodex.main st2)))
       /\ stderr (fst (qodex.main st1)) = stderr st1
       /\ stderr (fst (qodex.main st2)) = stderr st2.
Proof.
  split.
  - exists (print "Hello Qodex!" ;;; ret os_EX_OK). intros st. reflexivity.
  - intros st1 st2 st1' st2' ns1 ns2 H1 H2.
    destruct (main_after_successful_parse st1 st1' ns1 H1) as (E1 & O1 & R1).
    destruct (main_after_successful_parse st2 st2' ns2 H2) as (E2 & O2 & R2).
    rewrite E1, E2. cbn [fst snd stdout stderr].
    repeat split; congruence.
Qed.

Lemma main_ignores_parsed_files_witness :
  snd (qodex.main (fresh_process fs_ab "qodex" []))
  = snd (qodex.main (fresh_process fs_ab "qodex" ["b.txt"; "a.txt"]))
  /\ stdout (fst (qodex.main (fresh_process fs_ab "qodex" [])))
     = stdout (fst (qodex.main (fresh_process fs_ab "qodex" ["b.txt"; "a.txt"]))).
Proof.
  destruct main_ignores_parsed_files as [_ H].
  destruct (H (fresh_process fs_ab "qodex" [])
              (fresh_process fs_ab "qodex" ["b.txt"; "a.txt"]) _ _ _ _
              ltac:(vm_compute; reflexivity) ltac:(vm_compute; reflexivity))
    as (H1 & _ & _ & _ & H5 & _).
  split; [exact H1|]. apply H5. reflexivity.
Defined.

(* --------------------------------------------------------------------- *)
(** ** C6 *)

Lemma main_keeps_fs st : fs (fst (qodex.main st)) = fs st.
Proof.
  pose proof (main_has_result st) as R.
  destruct (qodex.main st) as [st' [r|e|]]; cbn in R |- *; [|destruct e|];
    try contradiction.
  - apply R.
  - destruct R as [[_ R]|[_ R]]; apply R.
Qed.

(** C6. A run leaves the file system as it found it, so a second run with
    the same arguments starts from the same state and ends with the same
    exit status and the same output; every run ends, with status 0 or 2. *)
Theorem runs_are_repeatable (fs0 : gmap string Inode) (a0 : string) (a : list string) :
  qodex.fs_after (qodex.run fs0 a0 a) = fs0
  /\ qodex.run (qodex.fs_after (qodex.run fs0 a0 a)) a0 a = qodex.run fs0 a0 a
  /\ (qodex.exit_status (qodex.run fs0 a0 a) = Some 0%Z
      \/ qodex.exit_status (qodex.run fs0 a0 a) = Some 2%Z).
Proof.
  assert (H : qodex.fs_after (qodex.run fs0 a0 a) = fs0).
  { unfold qodex.run. pose proof (main_keeps_fs (fresh_process fs0 a0 a)) as K.
    destruct (qodex.main (fresh_process fs0 a0 a)) as [st r]. exact K. }
  split; [exact H|]. split; [rewrite H; reflexivity|].
  unfold qodex.run. pose proof (main_has_result (fresh_process fs0 a0 a)) as R.
  destruct (qodex.main (fresh_process fs0 a0 a)) as [st [r|e|]]; cbn in R |- *;
    [|destruct e|]; try contradiction.
  - left. destruct R as [-> _]. reflexivity.
  - destruct R as [[-> _]|[-> _]]; auto.
Qed.

(* --------------------------------------------------------------------- *)
(** ** C7 *)

(** C7. The typed view changes nothing at run time: [typing.cast] returns
    its argument, and [parse_args] returns, in every state, exactly what the
    parser's own [parse_args] returns on the parser it has built (value,
    exception and effects), with no validation or wrapping in between.  The
    cast does not check the shape either: a namespace without [files] passes
    through it unchanged. *)
Theorem typed_view_is_identity :
  (forall (A : Type) (typ : string) (val : A), typing.cast typ val = val)
  /\ (forall st,
        qodex.parse_args st
        = (parser <- built_parser ;; argparse.parse_args parser) st)
  /\ (let other : argparse.Namespace := [("verbose", PyNone)] in
      typing.cast "QodexNamespace" other = other
      /\ qodex.files (typing.cast "QodexNamespace" other) = None).
Proof.
  split; [reflexivity|]. split; [|split; reflexivity]. intros st.
  rewrite qodex_parse_args_eq. unfold bind. rewrite built_parser_eq. reflexivity.
Qed.

(* --------------------------------------------------------------------- *)
(** ** C8 *)

(** C8. The parser ends the process in two ways only: with status 0 after
    printing the help message, or, on any failure, with status 2 after
    writing the usage and an error line to the error stream.  It never
    lets another exception escape, and it always ends.  Both kinds of
    failure are shown on an example: a path that cannot be opened and an
    argument form that is not recognised. *)
Theorem parse_failure_exits_with_status_2 :
  (forall st,
     match qodex.parse_args st with
     | (st', Normal _) => stdout st' = stdout st /\ stderr st' = stderr st
     | (st', Raise e) =>
         (e = SystemExit 2
          /\ stdout st' = stdout st
          /\ exists message,
               stderr st' = (stderr st +:+ argparse.format_usage (parser_of (prog_of st)))
                            +:+ (prog_of st +:+ ": error: " +:+ message +:+ nl))
         \/
         (e = SystemExit 0
          /\ stdout st' = stdout st +:+ argparse.format_help (parser_of (prog_of st))
          /\ stderr st' = stderr st)
     | (_, OutOfFuel) => False
     end)
  /\ snd (qodex.parse_args (fresh_process ∅ "qodex" ["missing.txt"]))
     = Raise (SystemExit 2)
  /\ snd (qodex.parse_args (fresh_process ∅ "qodex" ["--verbose"]))
     = Raise (SystemExit 2).
Proof.
  split; [|split; vm_compute; reflexivity].
  intros st. pose proof (qodex_parse_args_result st) as R.
  destruct (qodex.parse_args st) as [st' [ns|e|]]; cbn in R |- *; [|destruct e|];
    try contradiction.
  - destruct R as [(_ & _ & _ & H1 & H2) _]. auto.
  - destruct R as [[-> (_ & _ & _ & H1 & H2)]|[-> (_ & _ & _ & H1 & H2)]];
      [right|left]; auto.
Qed.

(* --------------------------------------------------------------------- *)
(** ** C9 *)



(* --------------------------------------------------------------------- *)
(** ** C10 *)

(** C10. Executing the module body, under any module name (so also as
    [__main__]), only binds the four imported modules, the protocol class
    and the two functions: the process state is left exactly as it was
    (nothing parsed, printed or opened).  [main] was therefore not called:
    a call of [main] always changes the state. *)
Theorem module_body_only_defines :
  (forall name st,
     exists globals,
       qodex.exec_module name st = (st, Normal globals)
       /\ map fst globals
          = ["abc"; "argparse"; "os"; "typing"; "QodexNamespace"; "parse_args"; "main"]
       /\ In ("parse_args", qodex.function_parse_args qodex.parse_args) globals
       /\ In ("main", qodex.function_main qodex.main) globals)
  /\ forall st, fst (qodex.main st) <> st.
Proof.
  split.
  - intros name st. eexists. split; [reflexivity|]. split; [reflexivity|].
    split; cbn; auto 10.
  - intros st H. pose proof (main_has_result st) as R.
    destruct (qodex.main st) as [st' [r|e|]]; cbn in R, H; subst st';
      [|destruct e|]; try contradiction.
    + destruct R as (_ & _ & R & _). symmetry in R.
      apply append_neq in R; [exact R|discriminate].
    + destruct R as [[_ (_ & _ & _ & R & _)]|[_ (_ & _ & _ & _ & m & R)]];
        symmetry in R.
      * apply append_neq in R; [exact R|discriminate].
      * assert (L : String.length ((stderr st +:+ argparse.format_usage
                                                    (parser_of (prog_of st)))
                                   +:+ (prog_of st +:+ ": error: " +:+ m +:+ nl))
                    = String.length (stderr st)) by congruence.
        rewrite !append_length in L.
        assert (0 < String.length (argparse.format_usage (parser_of (prog_of st)))).
        { unfold argparse.format_usage.
          change ("usage: " +:+ ?x) with (String "u" ("sage: " +:+ x)).
          cbn [String.length]. lia. }
        lia.
Qed.

(* ===================================================================== *)
(** * Further properties                                                  *)
(* ===================================================================== *)

(** ** Lists and strings *)

Lemma prefix_cons c s d t :
  String.prefix (String c s) (String d t) = Ascii.eqb c d && String.prefix s t.
Proof.
  cbn [String.prefix]. destruct (ascii_dec c d) as [->|N].
  - rewrite Ascii.eqb_refl. reflexivity.
  - apply Ascii.eqb_neq in N. rewrite N. reflexivity.
Qed.

Lemma prefix_nil v : String.prefix "" v = true.
Proof. destruct v; reflexivity. Qed.

Lemma str_in_cons n c s :
  str_in n (String c s) = String.prefix n (String c s) || str_in n s.
Proof. reflexivity. Qed.

Lemma str_in_here n v : str_in n (n +:+ v) = true.
Proof.
  assert (P : String.prefix n (n +:+ v) = true).
  { induction n as [|c n IH]; [apply prefix_nil|].
    change (String c n +:+ v) with (String c (n +:+ v)).
    rewrite prefix_cons, Ascii.eqb_refl. exact IH. }
  destruct n as [|c n]; [destruct v; reflexivity|].
  change (String c n +:+ v) with (String c (n +:+ v)) in *.
  rewrite str_in_cons, P. reflexivity.
Qed.

Lemma str_in_app n a v : str_in n (a +:+ n +:+ v) = true.
Proof.
  induction a as [|c a IH]; [exact (str_in_here n v)|].
  change (String c a +:+ n +:+ v) with (String c (a +:+ n +:+ v)).
  rewrite str_in_cons, IH. apply orb_true_r.
Qed.

Lemma firstn_length_app {A} (l l' : list A) : firstn (length l) (l ++ l') = l.
Proof. induction l as [|x l IH]; cbn; [destruct l'; reflexivity|rewrite IH; reflexivity]. Qed.


Lemma skipn_length_app {A} (l l' : list A) : skipn (length l) (l ++ l') = l'.
Proof. induction l as [|x l IH]; [reflexivity|exact IH]. Qed.

Lemma slice_nil {A} (l : list A) a : slice l a a = [].
Proof. unfold slice. rewrite Nat.sub_diag. reflexivity. Qed.

Lemma slice_app {A} (l : list A) a b c :
  a <= b -> b <= c -> slice l a b ++ slice l b c = slice l a c.
Proof.
  intros H1 H2. unfold slice.
  replace (c - a) with ((b - a) + (c - b)) by lia.
  rewrite <- (firstn_skipn (b - a) (firstn (b - a + (c - b)) (skipn a l))).
  f_equal.
  - rewrite firstn_firstn. f_equal. lia.
  - rewrite skipn_firstn_comm. f_equal; [lia|].
    rewrite skipn_skipn. f_equal. lia.
Qed.

Lemma slice_one (l : list string) b :
  b < length l -> slice l b (S b) = [nth b l ""].
Proof.
  unfold slice. replace (S b - b) with 1 by lia.
  revert b. induction l as [|x l IH]; intros b H; [cbn in H; lia|].
  destruct b as [|b]; [reflexivity|]. cbn [skipn nth]. apply IH. cbn in H. lia.
Qed.

Lemma slice_to_end {A} (l : list A) a b :
  a <= b -> slice l a b ++ slice_from l b = slice_from l a.
Proof.
  intros H. unfold slice, slice_from.
  rewrite <- (firstn_skipn (b - a) (skipn a l)) at 2. f_equal.
  rewrite skipn_skipn. f_equal. lia.
Qed.

Lemma slice_span {A} (l : list A) s k : slice l s (s + k) = firstn k (skipn s l).
Proof. unfold slice. f_equal. lia. Qed.

(** ** Opening the files, in full *)

Lemma opened_nil st : opened st [] = st.
Proof. unfold opened. rewrite app_nil_r. destruct st; reflexivity. Qed.

Lemma opened_cons st h hs :
  opened (with_open_file st h) hs = opened st (h :: hs).
Proof.
  unfold opened, with_open_file. cbn [fs argv0 args stdout stderr open_files].
  rewrite <- app_assoc. reflexivity.
Qed.

(** What the [files] action does with its argument strings: it opens
    them from left to right and stops at the first that cannot be opened. *)
Lemma open_each_eq prog l : forall st,
  open_each prog l st =
  match first_unopenable (fs st) l with
  | None =>
      (opened st (handles (length (open_files st)) (paths l)),
       Normal (map PyFile (streams (length (open_files st)) l)))
  | Some (pre, q, e) =>
      (opened st (handles (length (open_files st)) (paths pre)),
       Raise (cant_open q e))
  end.
Proof.
  induction l as [|p l IH]; intros st; unfold open_each in *.
  - cbn. rewrite opened_nil. reflexivity.
  - cbn [map_py first_unopenable streams paths List.filter].
    unfold bind at 1. rewrite get_value_files.
    destruct (String.eqb p "-") eqn:Ep; cbn [negb].
    + unfold bind at 1. rewrite IH.
      destruct (first_unopenable (fs st) l) as [[[pre q] e]|].
      * cbn [paths List.filter]. rewrite Ep. reflexivity.
      * reflexivity.
    + destruct (rplus_errno (fs st) p) as [e|] eqn:Rp.
      * cbn. rewrite opened_nil. reflexivity.
      * unfold bind at 1. rewrite IH.
        cbn [fs with_open_file open_files]. rewrite length_app. cbn [length].
        replace (length (open_files st) + 1) with (S (length (open_files st))) by lia.
        destruct (first_unopenable (fs st) l) as [[[pre q] e]|].
        -- cbn [paths List.filter handles]. rewrite Ep. cbn [negb handles].
           rewrite opened_cons. reflexivity.
        -- cbn [handles map]. rewrite opened_cons. reflexivity.
Qed.

Lemma first_unopenable_none fs0 l :
  first_unopenable fs0 l = None <-> Forall (stream_or_file fs0) l.
Proof.
  induction l as [|p l IH]; cbn [first_unopenable].
  - split; [constructor|reflexivity].
  - destruct (String.eqb p "-") eqn:Ep.
    + apply String.eqb_eq in Ep. subst p.
      destruct (first_unopenable fs0 l) as [[[pre q] e]|].
      * split; [discriminate|]. intros H. inversion H; subst.
        apply IH in H3. discriminate.
      * split; [|reflexivity]. intros _. constructor; [left; reflexivity|].
        apply IH. reflexivity.
    + apply String.eqb_neq in Ep.
      destruct (rplus_errno fs0 p) as [e|] eqn:Rp.
      * split; [discriminate|]. intros H. inversion H as [|? ? [H1|H1] H2]; subst.
        -- contradiction.
        -- apply can_open_rplus_errno in H1. congruence.
      * destruct (first_unopenable fs0 l) as [[[pre q] e]|].
        -- split; [discriminate|]. intros H. inversion H; subst.
           apply IH in H3. discriminate.
        -- split; [|reflexivity]. intros _. constructor.
           ++ right. apply can_open_rplus_errno. exact Rp.
           ++ apply IH. reflexivity.
Qed.


Lemma streams_length n l : length (streams n l) = length l.
Proof.
  revert n. induction l as [|p l IH]; intros n; [reflexivity|].
  cbn [streams]. destruct (String.eqb p "-"); cbn [length]; rewrite IH; reflexivity.
Qed.

Lemma streams_names n l : map stream_name (streams n l) = map name_of_argument l.
Proof.
  revert n. induction l as [|p l IH]; intros n; [reflexivity|].
  cbn [streams map]. unfold name_of_argument at 1.
  destruct (String.eqb p "-"); cbn [map stream_name]; rewrite IH; reflexivity.
Qed.

Lemma streams_rplus n l : Forall rplus_stream (streams n l).
Proof.
  revert n. induction l as [|p l IH]; intros n; cbn [streams]; [constructor|].
  destruct (String.eqb p "-"); constructor; try apply IH.
  - left. reflexivity.
  - right. eauto.
Qed.

Lemma streams_descriptors n l i h :
  streams n l !! i = Some h -> h = sys_stdin \/ 3 + n <= descriptor h.
Proof.
  revert n i. induction l as [|p l IH]; intros n i; [discriminate|].
  cbn [streams]. destruct (String.eqb p "-"); destruct i as [|i]; cbn.
  - intros [= <-]. left. reflexivity.
  - apply IH.
  - intros [= <-]. right. cbn. lia.
  - intros H. destruct (IH _ _ H) as [?|?]; [left; assumption|right; lia].
Qed.

Lemma streams_distinct n l : forall i j h,
  i < j -> streams n l !! i = Some h -> streams n l !! j = Some h -> h = sys_stdin.
Proof.
  revert n. induction l as [|p l IH]; intros n i j h Hij; [discriminate|].
  cbn [streams]. destruct (String.eqb p "-").
  - destruct i as [|i]; cbn; [intros [= <-]; reflexivity|].
    destruct j as [|j]; [lia|]. cbn. apply IH. lia.
  - destruct j as [|j]; [lia|]. destruct i as [|i]; cbn.
    + intros [= <-] H. destruct (streams_descriptors _ _ _ _ H) as [?|K];
        [discriminate|]. cbn in K. lia.
    + apply IH. lia.
Qed.

Lemma streams_paths n l :
  Forall (fun a => a <> "-") l -> streams n l = handles n l /\ paths l = l.
Proof.
  intros H. revert n. induction H as [|a l Ha Hl IH]; intros n; [split; reflexivity|].
  cbn [streams handles paths List.filter]. apply String.eqb_neq in Ha. rewrite Ha.
  cbn [negb]. destruct (IH (S n)) as [-> E]. fold (paths l). rewrite E. auto.
Qed.


Lemma strip_app pre l : Forall dash_free pre -> strip (pre ++ l) = pre ++ strip l.
Proof.
  intros H. unfold strip. induction H as [|a pre Ha Hpre IH]; [reflexivity|].
  cbn [app list_remove].
  assert (String.eqb a "--" = false) as ->.
  { destruct (String.eqb a "--") eqn:E; [|reflexivity].
    apply String.eqb_eq in E. subst a. discriminate. }
  destruct (list_remove "--" (pre ++ l)), (list_remove "--" l); cbn [option_map];
    congruence.
Qed.

Lemma strip_dash_free pre : Forall dash_free pre -> strip pre = pre.
Proof.
  intros H. rewrite <- (app_nil_r pre) at 1. rewrite strip_app by exact H.
  rewrite app_nil_r. reflexivity.
Qed.

Lemma before_separator_none l :
  Forall (fun a => a <> "--") l -> before_separator l = l /\ strip l = l.
Proof.
  intros H. unfold strip. induction H as [|a l Ha Hl [IH1 IH2]]; [split; reflexivity|].
  cbn [before_separator list_remove]. apply String.eqb_neq in Ha. rewrite Ha.
  rewrite IH1. split; [reflexivity|].
  destruct (list_remove "--" l); cbn [option_map]; congruence.
Qed.

Lemma before_separator_app pre post :
  Forall dash_free pre -> before_separator (pre ++ "--" :: post) = pre.
Proof.
  intros H. induction H as [|a pre Ha Hpre IH]; [reflexivity|].
  cbn [app before_separator].
  assert (String.eqb a "--" = false) as ->.
  { destruct (String.eqb a "--") eqn:E; [|reflexivity].
    apply String.eqb_eq in E. subst a. discriminate. }
  rewrite IH. reflexivity.
Qed.

(** ** How an argument string is read *)

(** [_parse_optional] on a string of two characters or more that starts
    with a dash, for the parser of the program. *)
Lemma parse_optional_two prog c2 x :
  optional_of prog (String "-" (String c2 x)) =
  let s := String "-" (String c2 x) in
  match argparse.lookup_option [("-h", help_action); ("--help", help_action)] s with
  | Some action => Some (Some action, s, None)
  | None =>
      match
        (if str_in "=" s then
           let '(option_string, explicit_arg) := split1 "=" s in
           match argparse.lookup_option [("-h", help_action); ("--help", help_action)]
                   option_string with
           | Some action => Some (Some action, option_string, Some explicit_arg)
           | None => None
           end
         else None)
      with
      | Some t => Some t
      | None =>
          match argparse._get_option_tuples (parser_of prog) s (fresh_process ∅ "" []) with
          | (_, Normal [t]) => Some t
          | (_, Normal []) =>
              if argparse._negative_number_matcher s || str_in " " s then None
              else Some (None, s, None)
          | _ => None
          end
      end
  end.
Proof.
  cbv zeta. unfold optional_of, argparse._parse_optional.
  cbn [String.eqb argparse.first_char_in].
  replace (argparse.prefix_chars (parser_of prog)) with "-" by reflexivity.
  rewrite char_in_dash, Ascii.eqb_refl. cbn [negb].
  replace (String.length (String "-" (String c2 x)) =? 1)%nat with false by reflexivity.
  replace (argparse._option_string_actions (parser_of prog))
    with [("-h", help_action); ("--help", help_action)] by reflexivity.
  destruct (argparse.lookup_option _ (String "-" (String c2 x))); [reflexivity|].
  match goal with |- context [match ?b with Some t => ret (Some t) | None => _ end] =>
    destruct b as [t|] end; [reflexivity|].
  unfold bind.
  destruct (get_option_tuples_ok prog c2 x) as (l & Hl & El). rewrite !El.
  destruct Hl as [->|(o & e & -> & Ho)]; [|reflexivity].
  cbn [argparse._has_negative_number_optionals parser_of existsb].
  destruct (argparse._negative_number_matcher _), (str_in " " _); reflexivity.
Qed.

Lemma get_option_tuples_long prog x st :
  argparse._get_option_tuples (parser_of prog) (String "-" (String "-" x)) st =
  (st, Normal
     (let s := String "-" (String "-" x) in
      if String.prefix (before_equals s) "--help"
      then [(Some help_action, "--help",
             if str_in "=" s then Some (snd (split1 "=" s)) else None)]
      else [])).
Proof.
  unfold argparse._get_option_tuples, before_equals. cbv zeta.
  cbn [argparse.first_char_in argparse.second_char_in argparse.prefix_chars parser_of
       argparse.allow_abbrev].
  rewrite !char_in_dash, Ascii.eqb_refl. cbn [andb].
  destruct (str_in "=" (String "-" (String "-" x))).
  - cbn [split1]. replace (Ascii.eqb "-" "=") with false by reflexivity.
    destruct (split1 "=" x) as [a b]. cbn [fst snd].
    cbn [flat_map argparse._option_string_actions parser_of app].
    unfold startswith. rewrite !prefix_cons.
    replace (Ascii.eqb "-" "h") with false by reflexivity.
    rewrite Ascii.eqb_refl. cbn [andb].
    destruct (String.prefix a "help"); reflexivity.
  - cbn [flat_map argparse._option_string_actions parser_of app].
    unfold startswith. rewrite !prefix_cons.
    replace (Ascii.eqb "-" "h") with false by reflexivity.
    rewrite Ascii.eqb_refl. cbn [andb].
    destruct (String.prefix x "help"); reflexivity.
Qed.

Lemma get_option_tuples_short prog c2 x st :
  Ascii.eqb c2 "-" = false ->
  argparse._get_option_tuples (parser_of prog) (String "-" (String c2 x)) st =
  (st, Normal (if Ascii.eqb c2 "h" then [(Some help_action, "-h", Some x)] else [])).
Proof.
  intros E2. unfold argparse._get_option_tuples.
  cbn [argparse.first_char_in argparse.second_char_in argparse.prefix_chars parser_of
       argparse.allow_abbrev].
  rewrite !char_in_dash, Ascii.eqb_refl, E2. cbn [andb negb].
  cbn [flat_map argparse._option_string_actions parser_of app].
  cbn [substring str_from]. rewrite substring_0_0.
  unfold startswith. rewrite !prefix_cons, E2.
  replace (str_from x 0) with x by (destruct x; reflexivity).
  cbn [String.eqb andb]. rewrite !Ascii.eqb_refl, (Ascii.eqb_sym "h" c2), (Ascii.eqb_sym "-" c2), E2.
  cbn [andb]. destruct (Ascii.eqb c2 "h"); reflexivity.
Qed.

Lemma split1_second c2 x :
  split1 "=" (String "-" (String c2 x)) =
  if Ascii.eqb c2 "=" then ("-", x)
  else (String "-" (String c2 (fst (split1 "=" x))), snd (split1 "=" x)).
Proof.
  cbn [split1]. replace (Ascii.eqb "-" "=") with false by reflexivity.
  destruct (Ascii.eqb c2 "="); [reflexivity|].
  destruct (split1 "=" x); reflexivity.
Qed.

Lemma lookup_option_second c2 x a :
  argparse.lookup_option [("-h", help_action); ("--help", help_action)]
    (String "-" (String c2 x)) = Some a ->
  a = help_action
  /\ ((c2 = "h"%char /\ x = "") \/ (c2 = "-"%char /\ x = "help")).
Proof.
  intros L. apply (lookup_option_table "") in L as [-> [L|L]];
    injection L as -> ->; auto.
Qed.

(** The answer of [_parse_optional] is the one that goes with the reading. *)
Lemma optional_of_reading prog s : read_as s (optional_of prog s).
Proof.
  unfold read_as.
  destruct s as [|c1 [|c2 x]].
  - reflexivity.
  - cbn [reading]. unfold optional_of, argparse._parse_optional.
    cbn [String.eqb argparse.first_char_in].
    replace (argparse.prefix_chars (parser_of prog)) with "-" by reflexivity.
    rewrite char_in_dash. destruct (Ascii.eqb c1 "-") eqn:E1; [|reflexivity].
    apply Ascii.eqb_eq in E1. subst c1. reflexivity.
  - cbn [reading].
    destruct (Ascii.eqb c1 "-") eqn:E1; cbn [negb].
    2:{ apply optional_of_dash_free. unfold dash_free. cbn [argparse.first_char_in].
        rewrite char_in_dash. exact E1. }
    apply Ascii.eqb_eq in E1. subst c1.
    rewrite parse_optional_two. cbv zeta.
    destruct (argparse.lookup_option _ (String "-" (String c2 x))) as [a|] eqn:L.
    { apply lookup_option_second in L as [-> [[-> ->]|[-> ->]]]; cbn; eauto. }
    clear L. rewrite split1_second.
    destruct (Ascii.eqb c2 "h") eqn:Eh.
    + apply Ascii.eqb_eq in Eh. subst c2.
      replace (Ascii.eqb "h" "=") with false by reflexivity.
      rewrite get_option_tuples_short by reflexivity. cbn [Ascii.eqb Bool.eqb].
      destruct (str_in "=" _); [|eauto].
      destruct (argparse.lookup_option _ _) as [a|] eqn:L2; [|eauto].
      apply lookup_option_second in L2 as [-> [[_ E]|[[=] _]]].
      rewrite E. eauto.
    + destruct (Ascii.eqb c2 "-") eqn:Ed; cbn [andb].
      * apply Ascii.eqb_eq in Ed. subst c2.
        replace (Ascii.eqb "-" "=") with false by reflexivity.
        rewrite get_option_tuples_long. cbv zeta.
        unfold before_equals. rewrite split1_second.
        replace (Ascii.eqb "-" "=") with false by reflexivity. cbn [fst snd].
        destruct (str_in "=" (String "-" (String "-" x))).
        -- destruct (argparse.lookup_option _ _) as [a|] eqn:L2.
           ++ apply lookup_option_second in L2 as [-> [[[=] _]|[_ ->]]].
              cbn. eauto.
           ++ destruct (String.prefix _ "--help"); [eauto|].
              destruct (_ || _); reflexivity.
        -- destruct (String.prefix _ "--help"); [eauto|].
           destruct (_ || _); reflexivity.
      * rewrite get_option_tuples_short by exact Ed. rewrite Eh.
        match goal with |- context [match ?b with Some t => Some t | None => _ end] =>
          assert (b = None) as ->
        end.
        { destruct (str_in "=" _); [|reflexivity].
          destruct (Ascii.eqb c2 "="); [reflexivity|].
          destruct (argparse.lookup_option _ _) as [a|] eqn:L2; [|reflexivity].
          apply lookup_option_second in L2 as [_ [[-> _]|[-> _]]]; discriminate. }
        destruct (_ || _); reflexivity.
Qed.

Lemma reading_path_iff prog s : reading s = as_path <-> optional_of prog s = None.
Proof.
  pose proof (optional_of_reading prog s) as H. unfold read_as in H.
  destruct (reading s).
  - tauto.
  - destruct H as (o & e & -> & _). split; discriminate.
  - rewrite H. split; discriminate.
Qed.

Lemma reading_paths prog l :
  Forall (fun a => reading a = as_path) l <-> Forall (fun a => optional_of prog a = None) l.
Proof.
  split; intros H; (eapply Forall_impl; [exact H|]); intros a; apply reading_path_iff.
Qed.

Lemma dash_free_reading a : dash_free a -> reading a = as_path.
Proof.
  unfold dash_free. destruct a as [|c1 [|c2 x]]; [reflexivity..|].
  cbn [argparse.first_char_in reading]. rewrite char_in_dash. intros ->. reflexivity.
Qed.

Lemma negative_number_reading s :
  argparse._negative_number_matcher s = true ->
  reading s = as_path /\ s <> "-" /\ s <> "--".
Proof.
  intros H. destruct s as [|c1 [|c2 x]].
  - discriminate.
  - split; [reflexivity|]. split; [|discriminate]. intros [= ->]. discriminate.
  - cbn [reading]. destruct (Ascii.eqb c1 "-") eqn:E1; cbn [negb].
    2:{ split; [reflexivity|]. split; [discriminate|].
        intros [= -> _]. discriminate. }
    apply Ascii.eqb_eq in E1. subst c1.
    destruct (Ascii.eqb c2 "h") eqn:Eh.
    { apply Ascii.eqb_eq in Eh. subst c2. discriminate. }
    destruct (Ascii.eqb c2 "-") eqn:Ed.
    { apply Ascii.eqb_eq in Ed. subst c2. discriminate. }
    cbn [andb]. rewrite H. cbn [orb]. split; [reflexivity|].
    split; [discriminate|]. intros [= -> _]. discriminate.
Qed.

(** An abbreviation of [--help] with a value attached. *)
Lemma help_value_reading prog pfx v :
  In pfx ["--"; "--h"; "--he"; "--hel"; "--help"] ->
  String.eqb (pfx +:+ "=" +:+ v) "--" = false
  /\ optional_of prog (pfx +:+ "=" +:+ v) = Some (Some help_action, "--help", Some v).
Proof.
  intros Hp. split; [cbn [In] in Hp; destruct Hp as [<-|[<-|[<-|[<-|[<-|[]]]]]]; reflexivity|].
  assert (Hin : str_in "=" (pfx +:+ "=" +:+ v) = true).
  { apply str_in_app. }
  assert (Hsplit : split1 "=" (pfx +:+ "=" +:+ v) = (pfx, v)).
  { cbn [In] in Hp. destruct Hp as [<-|[<-|[<-|[<-|[<-|[]]]]]]; reflexivity. }
  assert (exists x, pfx = String "-" (String "-" x)) as [x Hx].
  { cbn [In] in Hp. destruct Hp as [<-|[<-|[<-|[<-|[<-|[]]]]]]; eexists; reflexivity. }
  assert (Hpre : String.prefix pfx "--help" = true).
  { cbn [In] in Hp. destruct Hp as [<-|[<-|[<-|[<-|[<-|[]]]]]]; reflexivity. }
  assert (Hs : pfx +:+ "=" +:+ v = String "-" (String "-" (x +:+ "=" +:+ v))).
  { rewrite Hx. reflexivity. }
  rewrite Hs, parse_optional_two. cbv zeta. rewrite <- Hs.
  rewrite Hin, Hsplit.
  assert (argparse.lookup_option [("-h", help_action); ("--help", help_action)]
            (pfx +:+ "=" +:+ v) = None) as ->.
  { cbn [In] in Hp. destruct Hp as [<-|[<-|[<-|[<-|[<-|[]]]]]]; reflexivity. }
  destruct (argparse.lookup_option _ pfx) as [a|] eqn:L.
  { apply (lookup_option_table "") in L as [-> [L|L]]; [|rewrite L; reflexivity].
    rewrite Hx in L. discriminate. }
  rewrite Hs, get_option_tuples_long. cbv zeta. rewrite <- Hs.
  unfold before_equals. rewrite Hin, Hsplit. cbn [fst snd]. rewrite Hpre. reflexivity.
Qed.

(** ** A command line of paths *)

Lemma classify_pure_positional prog arg_strings : forall i,
  Forall (fun a => optional_of prog a = None) (before_separator arg_strings) ->
  fst (classify_pure prog i arg_strings) = [].
Proof.
  induction arg_strings as [|a rest IH]; intros i H; [reflexivity|].
  cbn [classify_pure before_separator] in *.
  destruct (String.eqb a "--"); [reflexivity|].
  inversion H as [|? ? Ha Hrest]; subst.
  specialize (IH (S i) Hrest).
  destruct (classify_pure prog (S i) rest) as [ind pat]. rewrite Ha.
  exact IH.
Qed.

(** The outcome of [parse_args] in full, when the first pass finds no option. *)
Lemma parse_args_positional st :
  Forall (fun a => optional_of (prog_of st) a = None) (before_separator (args st)) ->
  qodex.parse_args st =
  match first_unopenable (fs st) (strip (args st)) with
  | None =>
      (opened st (handles (length (open_files st)) (paths (strip (args st)))),
       Normal [("files",
                PyList (map PyFile (streams (length (open_files st)) (strip (args st)))))])
  | Some (pre, q, e) =>
      (diagnosed (prog_of st)
         (opened st (handles (length (open_files st)) (paths pre)))
         (argparse.str_ArgumentError (Some "files")
            ("can't open '" +:+ q +:+ "': " +:+ str_OSError e q)),
       Raise (SystemExit 2))
  end.
Proof.
  intros H. apply (classify_pure_positional _ _ 0) in H.
  destruct (classify_pure (prog_of st) 0 (args st)) as [ind pat] eqn:E.
  cbn [fst] in H. subst ind.
  rewrite qodex_parse_args_eq, (parse_args_no_options _ _ _ E), open_each_eq.
  destruct (first_unopenable (fs st) (strip (args st))) as [[[pre q] e]|]; reflexivity.
Qed.

(** What a successful parse has done, in full. *)
Lemma successful_parse st st' ns :
  qodex.parse_args st = (st', Normal ns) ->
  Forall (fun a => reading a = as_path) (before_separator (args st))
  /\ Forall (stream_or_file (fs st)) (strip (args st))
  /\ ns = [("files",
            PyList (map PyFile (streams (length (open_files st)) (strip (args st)))))]
  /\ st' = opened st (handles (length (open_files st)) (paths (strip (args st)))).
Proof.
  intros H. pose proof (qodex_parse_args_result st) as R. rewrite H in R.
  destruct R as [_ R].
  destruct (classify_pure (prog_of st) 0 (args st)) as [ind pat] eqn:E.
  cbn [fst] in R. subst ind.
  destruct (classify_pure_no_option _ _ _ _ E) as [_ F].
  rewrite (parse_args_positional st F) in H.
  apply reading_paths in F. split; [exact F|].
  destruct (first_unopenable (fs st) (strip (args st))) as [[[pre q] e]|] eqn:U;
    [discriminate|].
  apply first_unopenable_none in U. injection H as <- <-. auto.
Qed.

(** The converse: a command line of paths that can all be opened. *)
Lemma parse_of_paths st :
  Forall (fun a => reading a = as_path) (before_separator (args st)) ->
  Forall (stream_or_file (fs st)) (strip (args st)) ->
  qodex.parse_args st
  = (opened st (handles (length (open_files st)) (paths (strip (args st)))),
     Normal [("files",
              PyList (map PyFile (streams (length (open_files st)) (strip (args st)))))]).
Proof.
  intros F O. apply (reading_paths (prog_of st)) in F.
  rewrite (parse_args_positional st F).
  apply first_unopenable_none in O. rewrite O. reflexivity.
Qed.

(** ** Paths first, then something else *)

Lemma classify_pure_app prog pre l : forall i,
  Forall dash_free pre ->
  classify_pure prog i (pre ++ l)
  = (fst (classify_pure prog (i + length pre) l),
     run_of "A" (length pre) +:+ snd (classify_pure prog (i + length pre) l)).
Proof.
  induction pre as [|a pre IH]; intros i H.
  - cbn [app length run_of]. rewrite Nat.add_0_r.
    destruct (classify_pure prog i l); reflexivity.
  - inversion H as [|? ? Ha Hpre]; subst.
    cbn [app classify_pure length run_of].
    assert (String.eqb a "--" = false) as ->.
    { destruct (String.eqb a "--") eqn:E; [|reflexivity].
      apply String.eqb_eq in E. subst a. discriminate. }
    rewrite (IH (S i) Hpre), (optional_of_dash_free prog a Ha).
    replace (S i + length pre) with (i + S (length pre)) by lia.
    reflexivity.
Qed.

Lemma classify_pure_indices prog l : forall i,
  Forall (fun it => i <= fst it) (fst (classify_pure prog i l)).
Proof.
  induction l as [|a l IH]; intros i; cbn [classify_pure]; [constructor|].
  destruct (String.eqb a "--"); [constructor|].
  specialize (IH (S i)). destruct (classify_pure prog (S i) l) as [ind pat].
  cbn [fst] in IH.
  assert (Forall (fun it : nat * argparse.option_tuple => i <= fst it) ind).
  { eapply Forall_impl; [exact IH|]. cbn. intros; lia. }
  destruct (optional_of prog a); cbn [fst]; [constructor; [cbn; lia|]|]; assumption.
Qed.

Lemma classify_pure_unknown prog l : forall i,
  Forall (fun a => reading a <> as_help) (before_separator l) ->
  Forall (fun it : nat * argparse.option_tuple =>
            unknown_tuple (snd it) /\ i <= fst it < i + length l)
         (fst (classify_pure prog i l)).
Proof.
  induction l as [|a l IH]; intros i H; cbn [classify_pure before_separator] in *;
    [constructor|].
  destruct (String.eqb a "--"); [constructor|].
  inversion H as [|? ? Ha Hl]; subst.
  specialize (IH (S i) Hl). destruct (classify_pure prog (S i) l) as [ind pat].
  cbn [fst] in IH.
  assert (K : Forall (fun it : nat * argparse.option_tuple =>
                        unknown_tuple (snd it) /\ i <= fst it < i + length (a :: l)) ind).
  { eapply Forall_impl; [exact IH|]. cbn. intros it [H1 H2]. split; [exact H1|lia]. }
  pose proof (optional_of_reading prog a) as R. unfold read_as in R.
  destruct (optional_of prog a) as [t|]; cbn [fst]; [|exact K].
  constructor; [|exact K]. cbn [fst snd length]. split; [|lia].
  destruct (reading a); [discriminate|contradiction|].
  injection R as ->. eexists. reflexivity.
Qed.

Lemma classify_pure_paths prog l i :
  Forall dash_free l -> classify_pure prog i l = ([], run_of "A" (length l)).
Proof.
  intros H. pose proof (classify_pure_app prog l [] i H) as E.
  rewrite app_nil_r in E. rewrite E. cbn [classify_pure fst snd]. f_equal.
  clear. induction (length l) as [|n IH]; [reflexivity|].
  cbn [run_of]. change (String "A" ?a +:+ "") with (String "A" (a +:+ "")).
  rewrite IH. reflexivity.
Qed.

Lemma lookup_index_Forall (Q : nat * argparse.option_tuple -> Prop) ind j t :
  Forall Q ind -> argparse.lookup_index ind j = Some t -> Q (j, t).
Proof.
  intros H. induction H as [|[i ti] ind Hi Hind IH]; cbn [argparse.lookup_index];
    [discriminate|].
  destruct (j =? i)%nat eqn:E; [|exact IH].
  apply Nat.eqb_eq in E. subst. intros [= <-]. exact Hi.
Qed.

Lemma next_index_least n t ind start :
  start <= n ->
  Forall (fun it : nat * argparse.option_tuple => S n <= fst it) ind ->
  argparse.next_option_string_index ((n, t) :: ind) start = Some n.
Proof.
  intros Hs H. unfold argparse.next_option_string_index. cbn [fold_right].
  apply Nat.leb_le in Hs. rewrite Hs.
  match goal with |- context [fold_right ?f None ind] =>
    assert (K : match fold_right f None ind with Some j => n < j | None => True end)
  end.
  { induction H as [|[j tj] ind Hj Hind IH]; cbn [fold_right]; [exact I|].
    cbn [fst] in Hj. destruct (start <=? j)%nat.
    - destruct (fold_right _ None ind); lia.
    - exact IH. }
  destruct (fold_right _ None ind) as [j|]; [|reflexivity].
  f_equal. lia.
Qed.

Lemma max_index_ge start n t ind :
  start <= n ->
  (Z.of_nat start <=? argparse.max_option_string_index ((n, t) :: ind))%Z = true.
Proof.
  intros H. apply Z.leb_le. unfold argparse.max_option_string_index.
  cbn [fold_right]. lia.
Qed.

Lemma span_run n s : span "A-" (run_of "A" n +:+ s) = n + span "A-" s.
Proof.
  induction n as [|n IH]; [reflexivity|].
  cbn [run_of]. change (String "A" ?a +:+ s) with (String "A" (a +:+ s)).
  cbn [span]. replace (char_in "A" "A-") with true by reflexivity.
  rewrite IH. reflexivity.
Qed.

Lemma span_run_all n : span "A-" (run_of "A" n) = n.
Proof. induction n as [|n IH]; [reflexivity|]. cbn [run_of span]. rewrite IH. reflexivity. Qed.

Section Paths_first.
Variable prog : string.
Local Abbreviation P := (parser_of prog).
Variable arg_strings : list string.
Variable indices : list (nat * argparse.option_tuple).
Variable pattern : string.

(** The first call of [consume_positionals]: the [files] action takes
    the run of arguments at the start of the pattern. *)
Lemma consume_positionals_files fr st :
  argparse.positionals fr = [files_action] ->
  argparse.consume_positionals P arg_strings pattern fr 0 st =
  match open_each prog (strip (firstn (span "A-" pattern) arg_strings)) st with
  | (st1, Normal vs) =>
      (st1, Normal ({| argparse.namespace :=
                         argparse.setattr (argparse.namespace fr) "files" (PyList vs);
                       argparse.extras := argparse.extras fr;
                       argparse.positionals := [];
                       argparse.seen_actions :=
                         files_action :: argparse.seen_actions fr |},
                    span "A-" pattern))
  | (st1, Raise e) => (st1, Raise e)
  | (st1, OutOfFuel) => (st1, OutOfFuel)
  end.
Proof.
  intros E. unfold argparse.consume_positionals, argparse._match_arguments_partial.
  rewrite E.
  cbn [length argparse._match_arguments_partial_from firstn map].
  rewrite match_positional_files.
  replace (str_from pattern 0) with pattern by (destruct pattern; reflexivity).
  cbn [combine argparse.take_positionals]. unfold bind at 1 2.
  unfold slice. rewrite Nat.add_0_l, Nat.sub_0_r, skipn_O.
  rewrite take_action_files.
  destruct (open_each prog _ st) as [st1 [vs|e|]]; try reflexivity.
  unfold ret. cbn [argparse.namespace argparse.extras argparse.positionals
                   argparse.seen_actions length skipn].
  rewrite E. reflexivity.
Qed.


End Paths_first.

(** The help action with a value attached is an error of the action. *)
Lemma consume_optional_help_value prog arg_strings indices pattern fr start e st :
  argparse.lookup_index indices start = Some (Some help_action, "--help", Some e) ->
  argparse.consume_optional (parser_of prog) arg_strings indices pattern fr start st
  = (st, Raise (ArgumentError (Some "-h/--help")
                  ("ignored explicit argument " +:+ repr e))).
Proof.
  intros L. unfold argparse.consume_optional. rewrite L.
  destruct e as [|c e]; reflexivity.
Qed.

(** An option that ends the parse, as the next option at the current index. *)
Lemma loop_option_here prog arg_strings n t ind pat fuel fr st st1 x :
  Forall (fun it : nat * argparse.option_tuple => S n <= fst it) ind ->
  argparse.consume_optional (parser_of prog) arg_strings ((n, t) :: ind) pat fr n st
  = (st1, Raise x) ->
  argparse.consume_loop (parser_of prog) arg_strings ((n, t) :: ind) pat (S fuel) fr n st
  = (st1, Raise x).
Proof.
  intros H E. cbn [argparse.consume_loop].
  rewrite max_index_ge, (next_index_least n _ ind n) by (auto; lia).
  rewrite Nat.eqb_refl. cbn [negb argparse.lookup_index]. rewrite Nat.eqb_refl.
  unfold bind at 1. rewrite E. reflexivity.
Qed.

(** Openable paths, then such an option: the paths are opened first. *)
Lemma loop_paths_then_option prog st pre tail n t ind pat fuel fr st1 x :
  n = length pre -> 0 < n ->
  Forall dash_free pre ->
  Forall (can_open_rplus (fs st)) pre ->
  Forall (fun it : nat * argparse.option_tuple => S n <= fst it) ind ->
  argparse.positionals fr = [files_action] ->
  (forall fr1,
     argparse.consume_optional (parser_of prog) (pre ++ tail) ((n, t) :: ind)
       (run_of "A" n +:+ String "O" pat) fr1 n
       (opened st (handles (length (open_files st)) pre))
     = (st1, Raise x)) ->
  argparse.consume_loop (parser_of prog) (pre ++ tail) ((n, t) :: ind)
    (run_of "A" n +:+ String "O" pat) (S (S fuel)) fr 0 st
  = (st1, Raise x).
Proof.
  intros Hn Hpos Hd Ho Hind Hfr E.
  remember (S fuel) as fuel1 eqn:Hfuel.
  cbn [argparse.consume_loop].
  rewrite max_index_ge, (next_index_least n _ ind 0) by (auto; lia).
  assert (E0 : (0 =? n)%nat = false) by (apply Nat.eqb_neq; lia).
  rewrite E0. cbn [negb].
  unfold bind at 1. rewrite (consume_positionals_files prog) by exact Hfr.
  rewrite span_run. cbn [span].
  replace (char_in "O" "A-") with false by reflexivity. rewrite Nat.add_0_r.
  rewrite Hn at 1. rewrite firstn_length_app, strip_dash_free by exact Hd.
  rewrite (open_each_all _ _ _ Hd Ho).
  apply Nat.ltb_lt in Hpos. rewrite Hpos.
  rewrite Hfuel. apply loop_option_here; [exact Hind|apply E].
Qed.

Lemma option_after_paths prog pre flag t rest ns0 st st1 x :
  Forall dash_free pre ->
  Forall (can_open_rplus (fs st)) pre ->
  String.eqb flag "--" = false ->
  optional_of prog flag = Some t ->
  (forall ind pat fr1,
     argparse.consume_optional (parser_of prog) (pre ++ flag :: rest)
       ((length pre, t) :: ind) pat fr1 (length pre)
       (opened st (handles (length (open_files st)) pre))
     = (st1, Raise x)) ->
  argparse._parse_known_args (parser_of prog) (pre ++ flag :: rest) ns0 st
  = (st1, Raise x).
Proof.
  intros Hd Ho Hsep Hopt E.
  unfold argparse._parse_known_args, bind at 1. rewrite classify_eq.
  rewrite (classify_pure_app _ _ _ 0 Hd). cbn [classify_pure plus].
  rewrite Hsep, Hopt.
  pose proof (classify_pure_indices prog rest (S (length pre))) as Hind.
  destruct (classify_pure prog (S (length pre)) rest) as [ind pat].
  cbn [fst snd] in *. unfold bind at 1.
  rewrite length_app. cbn [length]. rewrite Nat.add_succ_r.
  change ("O" +:+ pat) with (String "O" pat).
  destruct pre as [|a pre].
  - cbn [length app run_of plus]. change ("" +:+ ?s) with s.
    rewrite (loop_option_here _ _ _ _ _ _ _ _ _ st1 x); [reflexivity|exact Hind|].
    specialize (E ind (String "O" pat)). cbn [handles length app] in E.
    rewrite opened_nil in E. apply E.
  - rewrite (loop_paths_then_option prog st (a :: pre) _ _ _ _ _ _ _ st1 x); auto.
    cbn [length]. lia.
Qed.


Lemma help_value_after_paths prog st pre flag e rest :
  args st = pre ++ flag :: rest ->
  Forall dash_free pre ->
  Forall (can_open_rplus (fs st)) pre ->
  String.eqb flag "--" = false ->
  optional_of prog flag = Some (Some help_action, "--help", Some e) ->
  argparse.parse_args (parser_of prog) st
  = (diagnosed prog (opened st (handles (length (open_files st)) pre))
       (argparse.str_ArgumentError (Some "-h/--help")
          ("ignored explicit argument " +:+ repr e)),
     Raise (SystemExit 2)).
Proof.
  intros Ha Hd Ho Hsep Hopt.
  unfold argparse.parse_args, argparse.parse_known_args, bind at 1 2,
    sys_argv_from_1, try_except.
  cbn [argparse.exit_on_error parser_of]. rewrite Ha.
  rewrite (option_after_paths prog pre flag _ rest _ st
             (opened st (handles (length (open_files st)) pre))
             (ArgumentError (Some "-h/--help")
                ("ignored explicit argument " +:+ repr e)) Hd Ho Hsep Hopt).
  2:{ intros ind pat fr1. apply consume_optional_help_value.
      cbn [argparse.lookup_index]. rewrite Nat.eqb_refl. reflexivity. }
  rewrite error_eq. reflexivity.
Qed.



Lemma with_extras_same fr : with_extras fr (argparse.extras fr) = fr.
Proof. destruct fr; reflexivity. Qed.

Section Leftovers.
Variable prog : string.
Local Abbreviation P := (parser_of prog).
Variable arg_strings : list string.
Variable indices : list (nat * argparse.option_tuple).
Variable pattern : string.

Hypothesis indices_unknown :
  Forall (fun it : nat * argparse.option_tuple =>
            unknown_tuple (snd it) /\ fst it < length arg_strings) indices.

Lemma lookup_index_unknown j t :
  argparse.lookup_index indices j = Some t ->
  unknown_tuple t /\ j < length arg_strings.
Proof. intros L. apply (lookup_index_Forall _ _ _ _ indices_unknown L). Qed.

Lemma consume_positionals_none fr start st :
  argparse.positionals fr = [] ->
  argparse.consume_positionals P arg_strings pattern fr start st
  = (st, Normal (fr, start)).
Proof.
  intros E. unfold argparse.consume_positionals. rewrite E.
  cbn [argparse._match_arguments_partial length argparse._match_arguments_partial_from
       combine argparse.take_positionals skipn].
  unfold bind, ret. destruct fr; reflexivity.
Qed.

Lemma consume_optional_unknown fr start t st :
  argparse.lookup_index indices start = Some t ->
  argparse.consume_optional P arg_strings indices pattern fr start st
  = (st, Normal (with_extras fr (argparse.extras fr ++ slice arg_strings start (S start)),
                 S start)).
Proof.
  intros L. unfold argparse.consume_optional. rewrite L.
  destruct (lookup_index_unknown _ _ L) as [[o ->] Hlt].
  rewrite slice_one by exact Hlt. reflexivity.
Qed.

Lemma loop_stop_next start k :
  start <= k -> (Z.of_nat k <= argparse.max_option_string_index indices)%Z ->
  loop_stop indices (S k) = loop_stop indices start /\ S k <= loop_stop indices start.
Proof.
  intros H1 H3. unfold loop_stop.
  replace (Z.of_nat start <=? argparse.max_option_string_index indices)%Z with true
    by (symmetry; apply Z.leb_le; lia).
  destruct (Z.of_nat (S k) <=? argparse.max_option_string_index indices)%Z eqn:E.
  - apply Z.leb_le in E. split; [reflexivity|lia].
  - apply Z.leb_gt in E. split; lia.
Qed.

(** Once the positionals are used up, the loop only collects leftovers. *)
Lemma loop_collects fuel : forall fr start st,
  argparse.positionals fr = [] ->
  (argparse.max_option_string_index indices < Z.of_nat start + Z.of_nat fuel)%Z ->
  argparse.consume_loop P arg_strings indices pattern fuel fr start st
  = (st, Normal (with_extras fr (argparse.extras fr
                                   ++ slice arg_strings start (loop_stop indices start)),
                 loop_stop indices start)).
Proof.
  induction fuel as [|fuel IH]; intros fr start st Hpos Hfuel;
    cbn [argparse.consume_loop];
    destruct (Z.leb (Z.of_nat start) (argparse.max_option_string_index indices)) eqn:Hle;
    try (unfold loop_stop; rewrite Hle, slice_nil, app_nil_r, with_extras_same;
         reflexivity).
  { apply Z.leb_le in Hle. lia. }
  apply Z.leb_le in Hle.
  destruct (next_index_some _ _ Hle) as [nxt Hnxt]. rewrite Hnxt.
  destruct (next_index_spec _ _ _ Hnxt) as (Hge & [tn Htn] & Hmax).
  destruct (loop_stop_next start nxt Hge Hmax) as [Hs1 Hs2].
  destruct (loop_stop_next start start (le_n _) Hle) as [Hs3 Hs4].
  assert (Hopt : forall fr1,
            argparse.positionals fr1 = [] ->
            optional_step prog arg_strings indices pattern fuel nxt fr1 start st
            = (st, Normal (with_extras fr1
                             (argparse.extras fr1
                                ++ slice arg_strings start (loop_stop indices start)),
                           loop_stop indices start))).
  { intros fr1 Hp1. unfold optional_step.
    destruct (argparse.lookup_index indices start) as [t1|] eqn:L1.
    - unfold bind at 1. rewrite (consume_optional_unknown _ _ _ _ L1).
      rewrite IH; [|exact Hp1|lia].
      cbn [argparse.extras with_extras]. rewrite Hs3, <- app_assoc, slice_app by lia.
      reflexivity.
    - unfold bind at 1. rewrite (consume_optional_unknown _ _ _ _ Htn).
      rewrite IH; [|exact Hp1|lia].
      unfold with_extras.
      cbn [argparse.namespace argparse.extras argparse.positionals
           argparse.seen_actions].
      rewrite Hs1, <- !app_assoc, (slice_app _ nxt), slice_app by lia.
      reflexivity. }
  destruct (negb (start =? nxt)%nat) eqn:Hneq.
  - unfold bind at 1. rewrite consume_positionals_none by exact Hpos.
    rewrite Nat.ltb_irrefl. apply (Hopt fr Hpos).
  - apply (Hopt fr Hpos).
Qed.

End Leftovers.

(** Openable paths, then an option that is not known: the paths are
    opened, and everything from the option on is left over. *)
Lemma unknown_after_paths prog st pre u rest :
  args st = pre ++ u :: rest ->
  pre <> [] ->
  Forall dash_free pre ->
  Forall (can_open_rplus (fs st)) pre ->
  reading u = as_unknown_option ->
  Forall (fun a => reading a <> as_help) (before_separator rest) ->
  argparse.parse_args (parser_of prog) st
  = (diagnosed prog (opened st (handles (length (open_files st)) pre))
       ("unrecognized arguments: " +:+ join " " (u :: rest)),
     Raise (SystemExit 2)).
Proof.
  intros Ha Hne Hd Ho Hu Hrest.
  assert (Hsep : String.eqb u "--" = false).
  { destruct (String.eqb u "--") eqn:E; [|reflexivity].
    apply String.eqb_eq in E. subst u. discriminate. }
  assert (Hopt : optional_of prog u = Some (None, u, None)).
  { pose proof (optional_of_reading prog u) as R. unfold read_as in R.
    rewrite Hu in R. exact R. }
  set (n := length pre).
  assert (Hn : 0 < n) by (destruct pre; [congruence|cbn; lia]).
  unfold argparse.parse_args, argparse.parse_known_args, bind at 1 2,
    sys_argv_from_1, try_except.
  cbn [argparse.exit_on_error parser_of]. rewrite Ha.
  unfold argparse._parse_known_args, bind at 1. rewrite classify_eq.
  rewrite (classify_pure_app _ _ _ 0 Hd). cbn [classify_pure plus].
  rewrite Hsep, Hopt.
  pose proof (classify_pure_indices prog rest (S n)) as Hind.
  pose proof (classify_pure_unknown prog rest (S n) Hrest) as Hunk.
  fold n. destruct (classify_pure prog (S n) rest) as [ind pat].
  cbn [fst snd] in *.
  change ("O" +:+ pat) with (String "O" pat).
  pose (indices := (n, (@None argparse.Action, u, @None string)) :: ind).
  assert (Hall : Forall (fun it : nat * argparse.option_tuple =>
                           unknown_tuple (snd it)
                           /\ fst it < length (pre ++ u :: rest)) indices).
  { rewrite length_app. cbn [length]. fold n. constructor.
    - cbn. split; [eexists; reflexivity|lia].
    - eapply Forall_impl; [exact Hunk|]. cbn. intros it [H1 H2]. split; [exact H1|lia]. }
  assert (Hmaxlt : (argparse.max_option_string_index indices
                    < Z.of_nat (length (pre ++ u :: rest)))%Z).
  { clear -Hall. induction Hall as [|[i t] l [_ Hi] Hl IH].
    - cbn. lia.
    - unfold argparse.max_option_string_index in *. cbn [fold_right fst] in *. lia. }
  unfold bind at 1.
  remember (length (pre ++ u :: rest)) as fuel eqn:Hfuel in |- *.
  cbn [argparse.consume_loop].
  rewrite max_index_ge, (next_index_least n _ ind 0) by (auto; lia).
  assert (E0 : (0 =? n)%nat = false) by (apply Nat.eqb_neq; lia).
  rewrite E0. cbn [negb].
  unfold bind at 1. rewrite (consume_positionals_files prog) by reflexivity.
  rewrite span_run. cbn [span].
  replace (char_in "O" "A-") with false by reflexivity. rewrite Nat.add_0_r.
  unfold n at 1. rewrite firstn_length_app, strip_dash_free by exact Hd.
  rewrite (open_each_all _ _ _ Hd Ho).
  apply Nat.ltb_lt in Hn. rewrite Hn. apply Nat.ltb_lt in Hn.
  fold indices.
  rewrite (loop_collects prog _ _ _ Hall) by (reflexivity || lia).
  cbn [with_extras argparse.extras argparse.namespace argparse.positionals
       argparse.seen_actions app].
  unfold bind at 1. rewrite (consume_positionals_none prog) by reflexivity.
  unfold with_extras.
  cbn [argparse.extras argparse.namespace argparse.positionals argparse.seen_actions
       app].
  assert (Hstop : n <= loop_stop indices n).
  { unfold loop_stop.
    destruct (Z.of_nat n <=? argparse.max_option_string_index indices)%Z eqn:E; [|lia].
    apply Z.leb_le in E. lia. }
  rewrite slice_to_end by exact Hstop.
  unfold slice_from, n. rewrite skipn_length_app.
  unfold bind at 1.
  match goal with |- context [argparse.check_required ?p ?a ?fr ?s] =>
    replace (argparse.check_required p a fr s) with (s, Normal (fr, @nil string))
      by reflexivity
  end.
  cbn [argparse.namespace argparse.extras].
  unfold ret at 1. rewrite error_eq. reflexivity.
Qed.

(** The same at any index. *)
Lemma consume_positionals_files_at prog arg_strings pattern fr start st :
  argparse.positionals fr = [files_action] ->
  argparse.consume_positionals (parser_of prog) arg_strings pattern fr start st =
  match open_each prog
          (strip (slice arg_strings start
                    (start + span "A-" (str_from pattern start)))) st with
  | (st1, Normal vs) =>
      (st1, Normal ({| argparse.namespace :=
                         argparse.setattr (argparse.namespace fr) "files" (PyList vs);
                       argparse.extras := argparse.extras fr;
                       argparse.positionals := [];
                       argparse.seen_actions :=
                         files_action :: argparse.seen_actions fr |},
                    start + span "A-" (str_from pattern start)))
  | (st1, Raise e) => (st1, Raise e)
  | (st1, OutOfFuel) => (st1, OutOfFuel)
  end.
Proof.
  intros E. unfold argparse.consume_positionals, argparse._match_arguments_partial.
  rewrite E.
  cbn [length argparse._match_arguments_partial_from firstn map].
  rewrite match_positional_files.
  cbn [combine argparse.take_positionals]. unfold bind at 1 2.
  rewrite take_action_files.
  destruct (open_each prog _ st) as [st1 [vs|e|]]; try reflexivity.
  unfold ret. cbn [argparse.namespace argparse.extras argparse.positionals
                   argparse.seen_actions length skipn].
  rewrite E. reflexivity.
Qed.

(** An option that is not known, then paths that can be opened. *)
Lemma unknown_before_paths prog st u l :
  args st = u :: l ->
  reading u = as_unknown_option ->
  Forall dash_free l ->
  Forall (can_open_rplus (fs st)) l ->
  argparse.parse_args (parser_of prog) st
  = (diagnosed prog (opened st (handles (length (open_files st)) l))
       ("unrecognized arguments: " +:+ u),
     Raise (SystemExit 2)).
Proof.
  intros Ha Hu Hd Ho.
  assert (Hsep : String.eqb u "--" = false).
  { destruct (String.eqb u "--") eqn:E; [|reflexivity].
    apply String.eqb_eq in E. subst u. discriminate. }
  assert (Hopt : optional_of prog u = Some (None, u, None)).
  { pose proof (optional_of_reading prog u) as R. unfold read_as in R.
    rewrite Hu in R. exact R. }
  unfold argparse.parse_args, argparse.parse_known_args, bind at 1 2,
    sys_argv_from_1, try_except.
  cbn [argparse.exit_on_error parser_of]. rewrite Ha.
  unfold argparse._parse_known_args, bind at 1. rewrite classify_eq.
  cbn [classify_pure]. rewrite Hsep, Hopt, (classify_pure_paths _ _ _ Hd).
  change ("O" +:+ ?p) with (String "O" p).
  unfold bind at 1. cbn [length].
  remember (length l) as k eqn:Hk.
  replace (argparse.consume_loop _ _ _ _ (S (S k)) _ 0 st)
    with (st, Normal ({| argparse.namespace := [("files", PyNone)];
                         argparse.extras := [u];
                         argparse.positionals := [files_action];
                         argparse.seen_actions := [] |}, 1)) by reflexivity.
  unfold bind at 1. rewrite consume_positionals_files_at by reflexivity.
  cbn [str_from]. replace (str_from (run_of "A" k) 0) with (run_of "A" k)
    by (destruct (run_of "A" k); reflexivity).
  rewrite span_run_all, slice_span. cbn [skipn]. rewrite Hk, firstn_all.
  rewrite strip_dash_free by exact Hd.
  rewrite (open_each_all _ _ _ Hd Ho).
  cbn [argparse.namespace argparse.extras argparse.positionals argparse.seen_actions].
  unfold slice_from. rewrite (skipn_all2 (n := 1 + length l)) by (cbn; lia).
  unfold bind at 1.
  match goal with |- context [argparse.check_required ?p ?a ?fr ?s] =>
    replace (argparse.check_required p a fr s) with (s, Normal (fr, @nil string))
      by reflexivity
  end.
  cbn [argparse.namespace argparse.extras app].
  unfold ret at 1. rewrite error_eq. reflexivity.
Qed.

Lemma main_exits st st1 c :
  qodex.parse_args st = (st1, Raise (SystemExit c)) ->
  qodex.main st = (st1, Raise (SystemExit c)).
Proof. intros H. rewrite main_after_parse, H. reflexivity. Qed.

(** ** The properties *)

(* --------------------------------------------------------------------- *)
(** ** X1 *)

(** X1. The value that [parse_args] returns conforms to the protocol
    [QodexNamespace]: it has the attribute [files] and no other, [files]
    holds a list of text streams (each one standard input or a file opened
    in mode [r+]), [_get_kwargs] yields the single pair of [files] and its
    value, and [_get_args] yields nothing. *)
Theorem parsed_namespace_conforms_to_protocol
    (st st' : Process) (ns : qodex.QodexNamespace) :
  qodex.parse_args st = (st', Normal ns) ->
  exists hs,
    qodex.files ns = Some hs
    /\ Forall rplus_stream hs
    /\ qodex._get_kwargs ns = [("files", PyList (map PyFile hs))]
    /\ qodex._get_args ns = []
    /\ (forall name, argparse.hasattr ns name = String.eqb "files" name).
Proof.
  intros H. destruct (successful_parse st st' ns H) as (_ & _ & -> & _).
  eexists. split; [apply files_of_handles|]. split; [apply streams_rplus|].
  split; [reflexivity|]. split; [reflexivity|].
  intros name. unfold argparse.hasattr. cbn [argparse.getattr].
  destruct (String.eqb "files" name); reflexivity.
Qed.

Lemma parsed_namespace_conforms_to_protocol_witness :
  exists hs,
    qodex.files [("files", PyList [PyFile (TextIOWrapper "a.txt" "r+" 3); PyFile sys_stdin])]
    = Some hs
    /\ Forall rplus_stream hs
    /\ qodex._get_kwargs
         [("files", PyList [PyFile (TextIOWrapper "a.txt" "r+" 3); PyFile sys_stdin])]
       = [("files", PyList (map PyFile hs))]
    /\ qodex._get_args
         [("files", PyList [PyFile (TextIOWrapper "a.txt" "r+" 3); PyFile sys_stdin])]
       = []
    /\ (forall name,
          argparse.hasattr
            [("files", PyList [PyFile (TextIOWrapper "a.txt" "r+" 3); PyFile sys_stdin])]
            name
          = String.eqb "files" name).
Proof.
  eapply (parsed_namespace_conforms_to_protocol
            (fresh_process fs_ab "qodex" ["a.txt"; "-"])).
  vm_compute. reflexivity.
Defined.

(* --------------------------------------------------------------------- *)
(** ** X2 *)

(** X2. Whenever the parse succeeds, whatever the command line was,
    [files] holds one stream per argument string, in the order of the
    command line, the first ["--"] left out: standard input for ["-"], and
    for any other string a stream of that name newly opened in mode [r+].
    The newly opened streams are exactly what the parse has added to the
    open files of the process, and the file system is as it was. *)
Theorem parsed_files_follow_the_command_line
    (st st' : Process) (ns : qodex.QodexNamespace) :
  qodex.parse_args st = (st', Normal ns) ->
  exists hs,
    qodex.files ns = Some hs
    /\ hs = streams (length (open_files st)) (strip (args st))
    /\ length hs = length (strip (args st))
    /\ map stream_name hs = map name_of_argument (strip (args st))
    /\ open_files st'
       = open_files st ++ handles (length (open_files st)) (paths (strip (args st)))
    /\ fs st' = fs st.
Proof.
  intros H. destruct (successful_parse st st' ns H) as (_ & _ & -> & ->).
  eexists. split; [apply files_of_handles|]. split; [reflexivity|].
  split; [apply streams_length|]. split; [apply streams_names|].
  split; reflexivity.
Qed.

Lemma parsed_files_follow_the_command_line_witness :
  exists hs,
    qodex.files
      [("files", PyList [PyFile (TextIOWrapper "b.txt" "r+" 3); PyFile sys_stdin;
                         PyFile (TextIOWrapper "a.txt" "r+" 4);
                         PyFile (TextIOWrapper "b.txt" "r+" 5)])]
    = Some hs
    /\ hs = streams 0 (strip ["b.txt"; "-"; "--"; "a.txt"; "b.txt"])
    /\ length hs = length (strip ["b.txt"; "-"; "--"; "a.txt"; "b.txt"])
    /\ map stream_name hs
       = map name_of_argument (strip ["b.txt"; "-"; "--"; "a.txt"; "b.txt"]).
Proof.
  destruct (parsed_files_follow_the_command_line
              (fresh_process fs_ab "qodex" ["b.txt"; "-"; "--"; "a.txt"; "b.txt"])
              _ _ ltac:(vm_compute; reflexivity)) as (hs & H1 & H2 & H3 & H4 & _).
  exists hs. auto.
Defined.

(* --------------------------------------------------------------------- *)
(** ** X3 *)


(* --------------------------------------------------------------------- *)
(** ** X4 *)


(* --------------------------------------------------------------------- *)
(** ** X5 *)

(** X5. After a ["--"] every argument is a path, whatever it looks like:
    when the arguments before the separator do not start with ['-'], and
    all arguments but the separator are ["-"] or files that can be opened,
    the parse succeeds and [files] holds one stream for each of them, in
    order.  Only the first ["--"] is the separator: a later one is a path
    like any other. *)
Theorem separator_makes_every_argument_a_path (st : Process) (pre post : list string) :
  args st = pre ++ "--" :: post ->
  Forall dash_free pre ->
  Forall (stream_or_file (fs st)) (pre ++ post) ->
  exists st' ns,
    qodex.parse_args st = (st', Normal ns)
    /\ qodex.files ns = Some (streams (length (open_files st)) (pre ++ post))
    /\ length (streams (length (open_files st)) (pre ++ post))
       = length pre + length post.
Proof.
  intros Ha Hd Ho.
  assert (Hs : strip (args st) = pre ++ post).
  { rewrite Ha, strip_app by exact Hd. reflexivity. }
  assert (F : Forall (fun a => reading a = as_path) (before_separator (args st))).
  { rewrite Ha, before_separator_app by exact Hd.
    eapply Forall_impl; [exact Hd|]. apply dash_free_reading. }
  rewrite <- Hs in Ho. rewrite (parse_of_paths st F Ho), Hs.
  eexists. eexists. split; [reflexivity|]. split; [apply files_of_handles|].
  rewrite streams_length. apply length_app.
Qed.

Lemma separator_makes_every_argument_a_path_witness :
  exists st' ns,
    qodex.parse_args
      (fresh_process (<["-h" := rw_file]> (<["--" := rw_file]> fs_ab)) "qodex"
         ["a.txt"; "--"; "-h"; "--"; "-"])
    = (st', Normal ns)
    /\ qodex.files ns = Some (streams 0 (["a.txt"] ++ ["-h"; "--"; "-"]))
    /\ length (streams 0 (["a.txt"] ++ ["-h"; "--"; "-"])) = 1 + 3.
Proof.
  apply (separator_makes_every_argument_a_path
           (fresh_process (<["-h" := rw_file]> (<["--" := rw_file]> fs_ab)) "qodex"
              ["a.txt"; "--"; "-h"; "--"; "-"])
           ["a.txt"] ["-h"; "--"; "-"]).
  - reflexivity.
  - repeat constructor.
  - cbn [app].
    repeat (apply List.Forall_cons;
            [first [left; reflexivity
                   |right; split; [discriminate|]; exists rw_file; repeat split]|]).
    apply List.Forall_nil.
Defined.

(* --------------------------------------------------------------------- *)
(** ** X6 *)



(* --------------------------------------------------------------------- *)
(** ** X7 *)



(* --------------------------------------------------------------------- *)
(** ** X8 *)

(** X8. An argument that looks like a negative number ([-5], [-.25]) is
    a path, although it starts with ['-']: a command line whose arguments
    do not start with ['-'] or look like negative numbers, and all name
    files that can be opened, is parsed with one stream per argument, in
    order. *)
Theorem negative_numbers_are_paths (st : Process) :
  Forall (fun p => dash_free p \/ argparse._negative_number_matcher p = true) (args st) ->
  Forall (can_open_rplus (fs st)) (args st) ->
  exists st' ns,
    qodex.parse_args st = (st', Normal ns)
    /\ qodex.files ns = Some (handles (length (open_files st)) (args st))
    /\ open_files st' = open_files st ++ handles (length (open_files st)) (args st).
Proof.
  intros Hk Ho.
  assert (K : Forall (fun a => reading a = as_path /\ a <> "-" /\ a <> "--") (args st)).
  { eapply Forall_impl; [exact Hk|]. intros a [Ha|Ha].
    - split; [apply dash_free_reading; exact Ha|].
      split; intros ->; discriminate.
    - apply negative_number_reading. exact Ha. }
  destruct (before_separator_none (args st)) as [B S].
  { eapply Forall_impl; [exact K|]. intros a H. apply H. }
  destruct (streams_paths (length (open_files st)) (args st)) as [T P].
  { eapply Forall_impl; [exact K|]. intros a H. apply H. }
  rewrite (parse_of_paths st).
  - rewrite S, T, P. eexists. eexists. split; [reflexivity|].
    split; [apply files_of_handles|reflexivity].
  - rewrite B. eapply Forall_impl; [exact K|]. intros a H. apply H.
  - rewrite S. eapply Forall_impl; [exact Ho|]. intros a H. right. exact H.
Qed.

Lemma negative_numbers_are_paths_witness :
  exists st' ns,
    qodex.parse_args
      (fresh_process (<["-5" := rw_file]> (<["-.25" := rw_file]> fs_ab)) "qodex"
         ["-5"; "a.txt"; "-.25"])
    = (st', Normal ns)
    /\ qodex.files ns = Some (handles 0 ["-5"; "a.txt"; "-.25"])
    /\ open_files st' = [] ++ handles 0 ["-5"; "a.txt"; "-.25"].
Proof.
  apply (negative_numbers_are_paths
           (fresh_process (<["-5" := rw_file]> (<["-.25" := rw_file]> fs_ab)) "qodex"
              ["-5"; "a.txt"; "-.25"])).
  - repeat (apply List.Forall_cons; [first [left; reflexivity|right; reflexivity]|]).
    apply List.Forall_nil.
  - repeat (apply List.Forall_cons;
            [split; [discriminate|]; exists rw_file; repeat split|]).
    apply List.Forall_nil.
Defined.

(* --------------------------------------------------------------------- *)
(** ** X9 *)

(** X9. The help option takes no value: [--help=v], under any
    abbreviation of [--help], after paths that can be opened, makes [main]
    exit with status 2; the help is not printed, and the error line says
    that the value [v] was ignored ([v] being made of printable characters
    other than quote and backslash). *)
Theorem help_takes_no_value
    (st : Process) (pre rest : list string) (abbreviation v : string) :
  args st = pre ++ (abbreviation +:+ "=" +:+ v) :: rest ->
  Forall dash_free pre ->
  Forall (can_open_rplus (fs st)) pre ->
  In abbreviation ["--h"; "--he"; "--hel"; "--help"] ->
  plain v = true ->
  exists st',
    qodex.main st = (st', Raise (SystemExit 2))
    /\ stdout st' = stdout st
    /\ stderr st'
       = (stderr st +:+ argparse.format_usage (parser_of (prog_of st)))
         +:+ (prog_of st +:+ ": error: "
              +:+ ("argument -h/--help: ignored explicit argument '" +:+ v +:+ "'")
              +:+ nl)
    /\ fs st' = fs st.
Proof.
  intros Ha Hd Ho Hf _.
  destruct (help_value_reading (prog_of st) abbreviation v) as [Hsep Hopt].
  { right. exact Hf. }
  eexists. split.
  - apply main_exits. rewrite qodex_parse_args_eq.
    apply (help_value_after_paths _ _ _ _ _ _ Ha Hd Ho Hsep Hopt).
  - repeat split.
Qed.

Lemma help_takes_no_value_witness :
  exists st',
    qodex.main (fresh_process fs_ab "qodex" ["a.txt"; "--he=me"; "b.txt"])
    = (st', Raise (SystemExit 2))
    /\ stdout st' = ""
    /\ stderr st'
       = ("" +:+ argparse.format_usage (parser_of "qodex"))
         +:+ ("qodex" +:+ ": error: "
              +:+ ("argument -h/--help: ignored explicit argument '" +:+ "me" +:+ "'")
              +:+ nl)
    /\ fs st' = fs_ab.
Proof.
  apply (help_takes_no_value
           (fresh_process fs_ab "qodex" ["a.txt"; "--he=me"; "b.txt"])
           ["a.txt"] ["b.txt"] "--he" "me").
  - reflexivity.
  - repeat constructor.
  - apply List.Forall_cons; [|apply List.Forall_nil].
    split; [discriminate|]. exists rw_file. repeat split.
  - cbn. auto.
  - reflexivity.
Defined.

(* --------------------------------------------------------------------- *)
(** ** X10 *)

(** X10. After the first run of paths nothing more is taken as a path:
    when paths that can be opened are followed by an option the parser
    does not know, and no help option stands between that option and a
    later ["--"], [main] exits with status 2 and the error line lists, as
    unrecognized, that option and every argument after it, as they were
    given.  The paths before the option have been opened; none of the
    arguments after it has. *)
Theorem unknown_option_is_reported_with_the_rest
    (st : Process) (pre rest : list string) (u : string) :
  args st = pre ++ u :: rest ->
  pre <> [] ->
  Forall dash_free pre ->
  Forall (can_open_rplus (fs st)) pre ->
  reading u = as_unknown_option ->
  Forall (fun a => reading a <> as_help) (before_separator rest) ->
  exists st',
    qodex.main st = (st', Raise (SystemExit 2))
    /\ stdout st' = stdout st
    /\ stderr st'
       = (stderr st +:+ argparse.format_usage (parser_of (prog_of st)))
         +:+ (prog_of st +:+ ": error: "
              +:+ ("unrecognized arguments: " +:+ join " " (u :: rest))
              +:+ nl)
    /\ open_files st' = open_files st ++ handles (length (open_files st)) pre
    /\ fs st' = fs st.
Proof.
  intros Ha Hne Hd Ho Hu Hrest. eexists. split.
  - apply main_exits. rewrite qodex_parse_args_eq.
    apply (unknown_after_paths _ _ _ _ _ Ha Hne Hd Ho Hu Hrest).
  - repeat split.
Qed.

Lemma unknown_option_is_reported_with_the_rest_witness :
  exists st',
    qodex.main
      (fresh_process fs_ab "qodex" ["a.txt"; "--verbose"; "b.txt"; "-5"; "--"; "-h"])
    = (st', Raise (SystemExit 2))
    /\ stdout st' = ""
    /\ stderr st'
       = ("" +:+ argparse.format_usage (parser_of "qodex"))
         +:+ ("qodex" +:+ ": error: "
              +:+ ("unrecognized arguments: "
                   +:+ join " " ["--verbose"; "b.txt"; "-5"; "--"; "-h"])
              +:+ nl)
    /\ open_files st' = [] ++ handles 0 ["a.txt"]
    /\ fs st' = fs_ab.
Proof.
  apply (unknown_option_is_reported_with_the_rest
           (fresh_process fs_ab "qodex"
              ["a.txt"; "--verbose"; "b.txt"; "-5"; "--"; "-h"])
           ["a.txt"] ["b.txt"; "-5"; "--"; "-h"] "--verbose").
  - reflexivity.
  - discriminate.
  - repeat constructor.
  - apply List.Forall_cons; [|apply List.Forall_nil].
    split; [discriminate|]. exists rw_file. repeat split.
  - reflexivity.
  - cbn [before_separator String.eqb Ascii.eqb Bool.eqb].
    repeat (apply List.Forall_cons; [discriminate|]). apply List.Forall_nil.
Defined.

(* --------------------------------------------------------------------- *)
(** ** X11 *)

(** X11. The streams of [files] are pairwise distinct, except for
    standard input: a path given twice is opened twice and yields two
    streams, while every ["-"] yields the one standard input. *)
Theorem parsed_streams_are_distinct
    (st st' : Process) (ns : qodex.QodexNamespace) :
  qodex.parse_args st = (st', Normal ns) ->
  exists hs,
    qodex.files ns = Some hs
    /\ forall i j h,
         i <> j -> hs !! i = Some h -> hs !! j = Some h -> h = sys_stdin.
Proof.
  intros H. destruct (successful_parse st st' ns H) as (_ & _ & -> & _).
  eexists. split; [apply files_of_handles|].
  intros i j h Hij Hi Hj.
  destruct (Nat.lt_total i j) as [L|[L|L]]; [|contradiction|].
  - apply (streams_distinct _ _ i j h L Hi Hj).
  - apply (streams_distinct _ _ j i h L Hj Hi).
Qed.

Lemma parsed_streams_are_distinct_witness :
  exists hs,
    qodex.files
      [("files", PyList [PyFile (TextIOWrapper "a.txt" "r+" 3);
                         PyFile (TextIOWrapper "a.txt" "r+" 4);
                         PyFile sys_stdin; PyFile sys_stdin])]
    = Some hs
    /\ forall i j h,
         i <> j -> hs !! i = Some h -> hs !! j = Some h -> h = sys_stdin.
Proof.
  eapply (parsed_streams_are_distinct
            (fresh_process fs_ab "qodex" ["a.txt"; "a.txt"; "-"; "-"])).
  vm_compute. reflexivity.
Defined.

(* --------------------------------------------------------------------- *)
(** ** X12 *)

(** X12. An option that the parser does not know, in front of the paths,
    does not keep them from being opened: when the paths after it do not
    start with ['-'] and can be opened, they all are, and only then [main]
    exits with status 2; the error line lists the option alone. *)
Theorem unknown_option_in_front_is_reported_alone
    (st : Process) (u : string) (l : list string) :
  args st = u :: l ->
  reading u = as_unknown_option ->
  Forall dash_free l ->
  Forall (can_open_rplus (fs st)) l ->
  exists st',
    qodex.main st = (st', Raise (SystemExit 2))
    /\ stdout st' = stdout st
    /\ stderr st'
       = (stderr st +:+ argparse.format_usage (parser_of (prog_of st)))
         +:+ (prog_of st +:+ ": error: " +:+ ("unrecognized arguments: " +:+ u) +:+ nl)
    /\ open_files st' = open_files st ++ handles (length (open_files st)) l
    /\ fs st' = fs st.
Proof.
  intros Ha Hu Hd Ho. eexists. split.
  - apply main_exits. rewrite qodex_parse_args_eq.
    apply (unknown_before_paths _ _ _ _ Ha Hu Hd Ho).
  - repeat split.
Qed.

Lemma unknown_option_in_front_is_reported_alone_witness :
  exists st',
    qodex.main (fresh_process fs_ab "qodex" ["--verbose"; "a.txt"; "b.txt"])
    = (st', Raise (SystemExit 2))
    /\ stdout st' = ""
    /\ stderr st'
       = ("" +:+ argparse.format_usage (parser_of "qodex"))
         +:+ ("qodex" +:+ ": error: " +:+ ("unrecognized arguments: " +:+ "--verbose")
              +:+ nl)
    /\ open_files st' = [] ++ handles 0 ["a.txt"; "b.txt"]
    /\ fs st' = fs_ab.
Proof.
  apply (unknown_option_in_front_is_reported_alone
           (fresh_process fs_ab "qodex" ["--verbose"; "a.txt"; "b.txt"])
           "--verbose" ["a.txt"; "b.txt"]).
  - reflexivity.
  - reflexivity.
  - repeat constructor.
  - repeat (apply List.Forall_cons;
            [split; [discriminate|]; exists rw_file; repeat split|]).
    apply List.Forall_nil.
Defined.
